(** * Snake (script.js): a shallow embedding of the game state machine

    The development follows [src/silver-rotary-phone/script.js].  The class
    [SnakeGame] becomes a record with one field per property of [this] that
    the game logic reads or writes, and every method becomes a function on
    that record.

    What is modelled and how:
    - grid coordinates, the score and the tick interval are JavaScript
      numbers that only ever hold integers; they are integers of [Z];
    - [bestScore] is the result of [Number(...)] and can be [NaN]; it has
      the type [jsnum];
    - arrays are lists: [push] appends, [unshift] conses, [pop] removes the
      last element;
    - [localStorage] is a finite map from keys to strings;
    - [Math.random()] is an oracle: every operation that may draw takes the
      draw as an argument;
    - the DOM (HUD, overlay), the canvas and the frame timing
      ([lastTickAt], [accumulator]) are left out: no method of the state
      machine reads them back. *)

From Stdlib Require Import Ascii.
From stdpp Require Import gmap strings list pretty.

Local Open Scope Z_scope.

(** ** Configuration *)

Definition GRID_COLUMNS : Z := 21.
Definition GRID_ROWS : Z := 21.
Definition INITIAL_SNAKE_LENGTH : nat := 4.
Definition BASE_SPEED_MS : Z := 120.
Definition SPEEDUP_EVERY_POINTS : Z := 5.

(** ** Positions and directions *)

Module Pos.
Record t : Type := mk { x : Z; y : Z }.

#[global] Instance eq_dec : EqDecision t.
Proof. solve_decision. Defined.
End Pos.

(** [posEquals(a, b)]: [a.x === b.x && a.y === b.y]. *)
Definition posEquals (a b : Pos.t) : bool :=
  (Pos.x a =? Pos.x b) && (Pos.y a =? Pos.y b).

(** The object [Directions] has four entries, each a vector with a name. *)
Module Directions.
Inductive t : Type := Up | Down | Left | Right.

Definition x (d : t) : Z :=
  match d with Up => 0 | Down => 0 | Left => -1 | Right => 1 end.

Definition y (d : t) : Z :=
  match d with Up => -1 | Down => 1 | Left => 0 | Right => 0 end.

Definition name (d : t) : string :=
  match d with
  | Up => "up" | Down => "down" | Left => "left" | Right => "right"
  end.

#[global] Instance eq_dec : EqDecision t.
Proof. solve_decision. Defined.
End Directions.

(** [isOpposite(a, b)]: [a.x + b.x === 0 && a.y + b.y === 0]. *)
Definition isOpposite (a b : Directions.t) : bool :=
  (Directions.x a + Directions.x b =? 0) &&
  (Directions.y a + Directions.y b =? 0).

(** ** Randomness

    [randomInt(n)] is [Math.floor(Math.random() * n)], an integer of
    [0, n), and 0 when [n] is 0.  The draw [r] stands for the outcome of
    [Math.random()]; the index it selects among [n] is its residue, so
    that every index below [n] is selected by some draw and no draw
    selects an index out of range. *)
Definition randomInt (r : nat) (n : nat) : nat :=
  match n with
  | O => O
  | S _ => (r mod n)%nat
  end.

(** ** Spawning food *)

(** The template literal [`${p.x},${p.y}`]. *)
Definition cellKey (p : Pos.t) : string :=
  pretty (Pos.x p) +:+ "," +:+ pretty (Pos.y p).

(** The array [spaces]: all cells, row by row. *)
Definition spaces : list Pos.t :=
  row ← seqZ 0 GRID_ROWS; col ← seqZ 0 GRID_COLUMNS; [Pos.mk col row].

(** [snakeSet]: the set of the keys of the snake's cells. *)
Definition snakeSet (snake : list Pos.t) : gset string :=
  list_to_set (cellKey <$> snake).

(** The array [empty]: the cells whose key is not in [snakeSet]. *)
Definition emptyCells (snake : list Pos.t) : list Pos.t :=
  filter (λ p, cellKey p ∉ snakeSet snake) spaces.

(** [spawnFood()], reading [this.snake].  The index is below the length
    of [empty] ([randomInt_lt]), so the lookup never falls out of range;
    the default of the lookup is never used. *)
Definition spawnFood (r : nat) (snake : list Pos.t) : Pos.t :=
  let empty := emptyCells snake in
  if bool_decide (length empty ≠ 0%nat)
  then default (Pos.mk 0 0) (empty !! randomInt r (length empty))
  else Pos.mk 0 0.

(** ** JavaScript numbers that may be [NaN] *)

(** The numbers this program stores in [bestScore]: an integer, or [NaN]
    when [Number] is given a string that is no numeric literal. *)
Inductive jsnum : Type := JNum (z : Z) | JNaN.

#[global] Instance jsnum_eq_dec : EqDecision jsnum.
Proof. solve_decision. Defined.

(** [a > b] for an integer [a]; every comparison with [NaN] is false. *)
Definition js_gt (a : Z) (b : jsnum) : bool :=
  match b with
  | JNum z => z <? a
  | JNaN => false
  end.

(** *** [Number] applied to a string

    ECMAScript's StringToNumber on the literals made of optional ASCII
    white space, an optional sign and decimal digits; the empty and the
    blank string are 0, and a string with any other character is [NaN].
    ECMAScript also accepts literals with a fraction, an exponent, a radix
    prefix or the word Infinity, and rounds integers beyond 2^53; this
    model answers [NaN] and the exact integer there, and nothing below
    applies it to such a string.  The game itself only ever writes
    [String(score)]. *)
Definition is_whitespace (c : ascii) : bool :=
  match Ascii.N_of_ascii c with
  | 9%N | 10%N | 11%N | 12%N | 13%N | 32%N => true
  | _ => false
  end.

Fixpoint trim_start (s : string) : string :=
  match s with
  | String c s' => if is_whitespace c then trim_start s' else s
  | EmptyString => EmptyString
  end.

Fixpoint trim_end (s : string) : string :=
  match s with
  | String c s' =>
      match trim_end s' with
      | EmptyString => if is_whitespace c then EmptyString
                       else String c EmptyString
      | t => String c t
      end
  | EmptyString => EmptyString
  end.

Definition trim (s : string) : string := trim_end (trim_start s).

Definition digit_value (c : ascii) : option Z :=
  let n := Z.of_N (Ascii.N_of_ascii c) in
  if (48 <=? n) && (n <=? 57) then Some (n - 48) else None.

(** The value of a string of decimal digits read after [acc]. *)
Fixpoint digits_value (acc : Z) (s : string) : option Z :=
  match s with
  | EmptyString => Some acc
  | String c s' =>
      match digit_value c with
      | Some d => digits_value (acc * 10 + d) s'
      | None => None
      end
  end.

Definition unsigned_literal (s : string) : jsnum :=
  match s with
  | EmptyString => JNaN
  | _ => match digits_value 0 s with Some z => JNum z | None => JNaN end
  end.

Definition js_neg (n : jsnum) : jsnum :=
  match n with JNum z => JNum (- z) | JNaN => JNaN end.

Definition StringToNumber (s : string) : jsnum :=
  match trim s with
  | EmptyString => JNum 0
  | String c u =>
      if decide (c = "+"%char) then unsigned_literal u
      else if decide (c = "-"%char) then js_neg (unsigned_literal u)
      else unsigned_literal (String c u)
  end.

(** ** Floating point: [Math.floor(this.speedIntervalMs * SPEEDUP_PERCENT)]

    [SPEEDUP_PERCENT] is the double nearest to 0.92, whose value is
    [SPEEDUP_PERCENT_mantissa / 2^53].  The product of an integer with it
    is rounded to 53 significant bits, to nearest and to even on a tie,
    and then floored. *)
Definition SPEEDUP_PERCENT_mantissa : Z := 8286623314361713.

(** Rounding of a non-negative numerator to 53 significant bits. *)
Definition round53 (n : Z) : Z :=
  let sh := Z.log2 n + 1 - 53 in
  if sh <=? 0 then n
  else
    let q := Z.shiftr n sh in
    let rem := Z.land n (Z.ones sh) in
    let half := Z.shiftl 1 (sh - 1) in
    let q' := if (half <? rem) || ((rem =? half) && Z.odd q)
              then q + 1 else q in
    Z.shiftl q' sh.

Definition floor_times_SPEEDUP_PERCENT (s : Z) : Z :=
  (Z.sgn s * round53 (Z.abs s * SPEEDUP_PERCENT_mantissa)) `div` 2 ^ 53.

(** ** The game object *)

Record SnakeGame : Type := mkSnakeGame {
  bestScore : jsnum;
  score : Z;
  isPaused : bool;
  isGameOver : bool;
  speedIntervalMs : Z;
  speedMultiplier : Z;
  pendingDirection : Directions.t;
  currentDirection : Directions.t;
  snake : list Pos.t;
  food : Pos.t;
  (** the browser's storage, which [gameOver] writes *)
  localStorage : gmap string string
}.

(** Assignments to one property of [this]. *)
Definition set_score (v : Z) (g : SnakeGame) : SnakeGame :=
  mkSnakeGame (bestScore g) v (isPaused g) (isGameOver g)
    (speedIntervalMs g) (speedMultiplier g) (pendingDirection g)
    (currentDirection g) (snake g) (food g) (localStorage g).

Definition set_isPaused (v : bool) (g : SnakeGame) : SnakeGame :=
  mkSnakeGame (bestScore g) (score g) v (isGameOver g)
    (speedIntervalMs g) (speedMultiplier g) (pendingDirection g)
    (currentDirection g) (snake g) (food g) (localStorage g).

Definition set_isGameOver (v : bool) (g : SnakeGame) : SnakeGame :=
  mkSnakeGame (bestScore g) (score g) (isPaused g) v
    (speedIntervalMs g) (speedMultiplier g) (pendingDirection g)
    (currentDirection g) (snake g) (food g) (localStorage g).

Definition set_speedIntervalMs (v : Z) (g : SnakeGame) : SnakeGame :=
  mkSnakeGame (bestScore g) (score g) (isPaused g) (isGameOver g)
    v (speedMultiplier g) (pendingDirection g)
    (currentDirection g) (snake g) (food g) (localStorage g).

Definition set_pendingDirection (v : Directions.t) (g : SnakeGame)
  : SnakeGame :=
  mkSnakeGame (bestScore g) (score g) (isPaused g) (isGameOver g)
    (speedIntervalMs g) (speedMultiplier g) v
    (currentDirection g) (snake g) (food g) (localStorage g).

Definition set_currentDirection (v : Directions.t) (g : SnakeGame)
  : SnakeGame :=
  mkSnakeGame (bestScore g) (score g) (isPaused g) (isGameOver g)
    (speedIntervalMs g) (speedMultiplier g) (pendingDirection g)
    v (snake g) (food g) (localStorage g).

Definition set_snake (v : list Pos.t) (g : SnakeGame) : SnakeGame :=
  mkSnakeGame (bestScore g) (score g) (isPaused g) (isGameOver g)
    (speedIntervalMs g) (speedMultiplier g) (pendingDirection g)
    (currentDirection g) v (food g) (localStorage g).

Definition set_food (v : Pos.t) (g : SnakeGame) : SnakeGame :=
  mkSnakeGame (bestScore g) (score g) (isPaused g) (isGameOver g)
    (speedIntervalMs g) (speedMultiplier g) (pendingDirection g)
    (currentDirection g) (snake g) v (localStorage g).

(** The key of the persisted best score. *)
Definition HIGH_SCORE_KEY : string := "snake-high-score".

(** The loop of [reset]: [i] counts down from [INITIAL_SNAKE_LENGTH - 1]
    to 0 and each round pushes the cell [startX - i] of the row. *)
Fixpoint reset_loop (rounds : nat) (startX startY : Z) (acc : list Pos.t)
  : list Pos.t :=
  match rounds with
  | O => acc
  | S i => reset_loop i startX startY
             (acc ++ [Pos.mk (startX - Z.of_nat i) startY])
  end.

Definition initial_snake : list Pos.t :=
  let startX := GRID_COLUMNS `div` 3 in
  let startY := GRID_ROWS `div` 2 in
  reset_loop INITIAL_SNAKE_LENGTH startX startY [].

(** [reset()]: everything but [bestScore] and the storage is assigned. *)
Definition reset (r : nat) (g : SnakeGame) : SnakeGame :=
  {| bestScore := bestScore g;
     score := 0;
     isPaused := false;
     isGameOver := false;
     speedIntervalMs := BASE_SPEED_MS;
     speedMultiplier := 1;
     pendingDirection := Directions.Right;
     currentDirection := Directions.Right;
     snake := initial_snake;
     food := spawnFood r initial_snake;
     localStorage := localStorage g |}.

(** [localStorage.getItem(key) || 0] followed by [Number]: [null] and the
    empty string are falsy and give the number 0; any other string is
    converted. *)
Definition read_bestScore (ls : gmap string string) : jsnum :=
  match ls !! HIGH_SCORE_KEY with
  | None => JNum 0
  | Some EmptyString => JNum 0
  | Some s => StringToNumber s
  end.

(** [new SnakeGame()].  The properties that the constructor has not yet
    assigned when it calls [reset] are all assigned by [reset] before they
    are read; they start here at the values [reset] gives them. *)
Definition constructor (ls : gmap string string) (r : nat) : SnakeGame :=
  reset r
    {| bestScore := read_bestScore ls;
       score := 0; isPaused := false; isGameOver := false;
       speedIntervalMs := BASE_SPEED_MS; speedMultiplier := 1;
       pendingDirection := Directions.Right;
       currentDirection := Directions.Right;
       snake := []; food := Pos.mk 0 0;
       localStorage := ls |}.

(** [setDirection(dir)]; [None] is a falsy argument ([undefined]). *)
Definition setDirection (dir : option Directions.t) (g : SnakeGame)
  : SnakeGame :=
  match dir with
  | None => g
  | Some d =>
      if isOpposite d (currentDirection g) then g
      else set_pendingDirection d g
  end.

Definition togglePause (g : SnakeGame) : SnakeGame :=
  if isGameOver g then g
  else set_isPaused (negb (isPaused g)) g.

Definition gameOver (g : SnakeGame) : SnakeGame :=
  let g1 := set_isGameOver true g in
  if js_gt (score g1) (bestScore g1)
  then {| bestScore := JNum (score g1);
          score := score g1; isPaused := isPaused g1;
          isGameOver := isGameOver g1;
          speedIntervalMs := speedIntervalMs g1;
          speedMultiplier := speedMultiplier g1;
          pendingDirection := pendingDirection g1;
          currentDirection := currentDirection g1;
          snake := snake g1; food := food g1;
          localStorage :=
            <[HIGH_SCORE_KEY := pretty (score g1)]> (localStorage g1) |}
  else g1.

(** The self-collision loop of [tick]: the first segment equal to
    [nextHead] ends the scan. *)
Fixpoint hits_body (segments : list Pos.t) (nextHead : Pos.t) : bool :=
  match segments with
  | [] => false
  | s :: rest => if posEquals s nextHead then true
                 else hits_body rest nextHead
  end.

Definition out_of_grid (p : Pos.t) : bool :=
  (Pos.x p <? 0) || (GRID_COLUMNS <=? Pos.x p) ||
  (Pos.y p <? 0) || (GRID_ROWS <=? Pos.y p).

(** The cell [tick] computes from [snake[0]] and a direction. *)
Definition next_head (head : Pos.t) (d : Directions.t) : Pos.t :=
  Pos.mk (Pos.x head + Directions.x d) (Pos.y head + Directions.y d).

(** The food branch of [tick], entered after [unshift]. *)
Definition eat (r : nat) (g : SnakeGame) : SnakeGame :=
  let g1 := set_score (score g + 1) g in
  let g2 :=
    if Z.rem (score g1) SPEEDUP_EVERY_POINTS =? 0
    then set_speedIntervalMs
           (Z.max 45 (floor_times_SPEEDUP_PERCENT (speedIntervalMs g1))) g1
    else g1 in
  set_food (spawnFood r (snake g2)) g2.

(** [tick()].  [None] is the TypeError of reading [this.snake[0].x] on an
    empty array. *)
Definition tick (r : nat) (g : SnakeGame) : option SnakeGame :=
  if isPaused g || isGameOver g then Some g
  else
    let g1 := set_currentDirection (pendingDirection g) g in
    match snake g1 with
    | [] => None
    | head :: _ =>
        let nextHead := next_head head (currentDirection g1) in
        if out_of_grid nextHead then Some (gameOver g1)
        else if hits_body (snake g1) nextHead then Some (gameOver g1)
        else
          let g2 := set_snake (nextHead :: snake g1) g1 in
          let ateFood := posEquals nextHead (food g2) in
          if ateFood then Some (eat r g2)
          else Some (set_snake (removelast (snake g2)) g2)
    end.

(** ** Commands and reachable states *)

(** The calls that the input handlers and the loop make on the game. *)
Inductive command : Type :=
  | Reset (r : nat)
  | SetDirection (dir : option Directions.t)
  | TogglePause
  | Tick (r : nat).

Definition step (c : command) (g : SnakeGame) : option SnakeGame :=
  match c with
  | Reset r => Some (reset r g)
  | SetDirection dir => Some (setDirection dir g)
  | TogglePause => Some (togglePause g)
  | Tick r => tick r g
  end.

Fixpoint run (cs : list command) (g : SnakeGame) : option SnakeGame :=
  match cs with
  | [] => Some g
  | c :: cs' =>
      match step c g with
      | Some g' => run cs' g'
      | None => None
      end
  end.

(** The states of a process: the one the constructor builds from some
    storage, and those that the commands lead to. *)
Inductive reachable : SnakeGame → Prop :=
  | reachable_new ls r : reachable (constructor ls r)
  | reachable_step g c g' :
      reachable g → step c g = Some g' → reachable g'.

Definition is_reset (c : command) : bool :=
  match c with Reset _ => true | _ => false end.


(** ** Notions used in the statements *)

(** A cell of the grid. *)
Definition in_grid (p : Pos.t) : Prop :=
  0 ≤ Pos.x p < GRID_COLUMNS ∧ 0 ≤ Pos.y p < GRID_ROWS.

(** The cell that the next tick would move the head to. *)
Definition nextHead_of (g : SnakeGame) : option Pos.t :=
  match snake g with
  | [] => None
  | head :: _ => Some (next_head head (pendingDirection g))
  end.

(** The next tick gives the snake a new head, and that head is the food. *)
Definition eats (g : SnakeGame) : bool :=
  negb (isPaused g || isGameOver g) &&
  match nextHead_of g with
  | Some p => negb (out_of_grid p) && negb (hits_body (snake g) p)
              && posEquals p (food g)
  | None => false
  end.

(** How many of the [n] values of [randomInt(n)] make [spawnFood] return
    the cell [p], for [n] the number of cells in [empty]. *)
Definition draws_giving (snake : list Pos.t) (p : Pos.t) : nat :=
  length (filter (λ i, spawnFood i snake = p)
                 (seq 0 (length (emptyCells snake)))).


(** What holds of the game in every state of a process. *)
Record game_inv (g : SnakeGame) : Prop := mk_game_inv {
  inv_length : (INITIAL_SNAKE_LENGTH ≤ length (snake g))%nat;
  inv_NoDup : NoDup (snake g);
  inv_speed : 45 ≤ speedIntervalMs g ≤ BASE_SPEED_MS;
  inv_score : 0 ≤ score g;
  inv_direction :
    isOpposite (pendingDirection g) (currentDirection g) = false;
  inv_food :
    in_grid (food g) ∧ (food g ∉ snake g ∨ emptyCells (snake g) = [])
}.

(** The four ways through [tick], with the state each one returns. *)
Inductive tick_case (r : nat) (g : SnakeGame) : SnakeGame → Prop :=
  | tick_case_idle :
      isPaused g || isGameOver g = true →
      tick_case r g g
  | tick_case_fatal h t :
      isPaused g = false → isGameOver g = false → snake g = h :: t →
      out_of_grid (next_head h (pendingDirection g)) = true ∨
      hits_body (snake g) (next_head h (pendingDirection g)) = true →
      tick_case r g (gameOver (set_currentDirection (pendingDirection g) g))
  | tick_case_eat h t :
      isPaused g = false → isGameOver g = false → snake g = h :: t →
      out_of_grid (next_head h (pendingDirection g)) = false →
      hits_body (snake g) (next_head h (pendingDirection g)) = false →
      posEquals (next_head h (pendingDirection g)) (food g) = true →
      tick_case r g
        (eat r (set_snake (next_head h (pendingDirection g) :: snake g)
                  (set_currentDirection (pendingDirection g) g)))
  | tick_case_move h t :
      isPaused g = false → isGameOver g = false → snake g = h :: t →
      out_of_grid (next_head h (pendingDirection g)) = false →
      hits_body (snake g) (next_head h (pendingDirection g)) = false →
      posEquals (next_head h (pendingDirection g)) (food g) = false →
      tick_case r g
        (set_snake
           (removelast (next_head h (pendingDirection g) :: snake g))
           (set_currentDirection (pendingDirection g) g)).

(** ** States used as examples *)

(** The game of a fresh process: nothing stored, the draw 0. *)
Definition fresh_game : SnakeGame := constructor ∅ 0.

(** A fresh game whose food was drawn on the cell above the head (4,10),
    after a press of the Up key. *)
Definition game_below_food : SnakeGame :=
  setDirection (Some Directions.Up) (constructor ∅ 193).

(** Up, then four ticks that each eat the food drawn just above the head:
    the game they lead to from [constructor ∅ 193] has the score 4 and the
    food above the head again. *)
Definition four_meals : list command :=
  [SetDirection (Some Directions.Up); Tick 172; Tick 151; Tick 130; Tick 109].

(** All characters of a string satisfy a test. *)
Fixpoint string_forallb (f : ascii → bool) (s : string) : bool :=
  match s with
  | EmptyString => true
  | String c s' => f c && string_forallb f s'
  end.

Definition is_digit (c : ascii) : bool :=
  match digit_value c with Some _ => true | None => false end.

Definition is_number_char (c : ascii) : bool :=
  is_digit c || bool_decide (c = "-"%char).

(** ** Further notions: the shape of the snake and the session *)

(** Two cells that share a side. *)
Definition adjacent (a b : Pos.t) : Prop :=
  Z.abs (Pos.x a - Pos.x b) + Z.abs (Pos.y a - Pos.y b) = 1.

(** Every segment shares a side with the one that follows it. *)
Fixpoint chain (l : list Pos.t) : Prop :=
  match l with
  | a :: t => match t with
              | b :: _ => adjacent a b ∧ chain t
              | [] => True
              end
  | [] => True
  end.

(** The assignment of the speed-up step of [tick]:
    [Math.max(45, Math.floor(this.speedIntervalMs * SPEEDUP_PERCENT))]. *)
Definition speedup_step (s : Z) : Z :=
  Z.max 45 (floor_times_SPEEDUP_PERCENT s).

(** The interval after the speed-up steps that a score has met, one for
    each multiple of [SPEEDUP_EVERY_POINTS] up to it. *)
Definition interval_at_score (n : Z) : Z :=
  Nat.iter (Z.to_nat (n `div` SPEEDUP_EVERY_POINTS)) speedup_step
    BASE_SPEED_MS.

(** What holds of a session beyond [game_inv]. *)
Record session_inv (g : SnakeGame) : Prop := mk_session_inv {
  sinv_grid : Forall in_grid (snake g);
  sinv_chain : chain (snake g);
  sinv_score :
    score g = Z.of_nat (length (snake g)) - Z.of_nat INITIAL_SNAKE_LENGTH;
  sinv_interval : speedIntervalMs g = interval_at_score (score g);
  sinv_flags : isPaused g && isGameOver g = false;
  sinv_corner : food g ∈ snake g → food g = Pos.mk 0 0;
  sinv_stored : read_bestScore (localStorage g) = bestScore g
}.

(** The direction that [setDirection] stages for an argument, if any,
    when [cur] is the current direction. *)
Definition accepted (cur : Directions.t) (dir : option Directions.t)
  : option Directions.t :=
  match dir with
  | Some d => if isOpposite d cur then None else Some d
  | None => None
  end.

(** The last argument of a series that [setDirection] accepts. *)
Definition last_accepted (cur : Directions.t)
  (dirs : list (option Directions.t)) : option Directions.t :=
  last (omap (accepted cur) dirs).

(** The intervals of a session, one for every five points. *)
Definition interval_table : list Z :=
  [120; 110; 101; 92; 84; 77; 70; 64; 58; 53; 48].

(** ** The page: HUD and overlay

    The elements that the game writes: the text of the three counters and
    of the pause button, the text of the overlay and its [hidden] flag. *)

Record Dom : Type := mkDom {
  scoreEl : string;
  bestEl : string;
  speedEl : string;
  btnPause : string;
  overlayTitle : string;
  overlaySubtitle : string;
  overlay_hidden : bool
}.

Definition MAX_SPEED_MULTIPLIER : Z := 3.

(** [String(n)] for a number that may be [NaN]. *)
Definition String_jsnum (n : jsnum) : string :=
  match n with
  | JNum z => pretty z
  | JNaN => "NaN"
  end.

(** *** Floating point: [BASE_SPEED_MS / this.speedIntervalMs] and
    [toFixed(2)]

    A quotient of two integers is the exact quotient rounded to 53
    significant bits, to nearest and to even on a tie.  The division is
    carried to 128 binary places and truncated; [sticky] tells that it
    left a remainder. *)
Definition round53_sticky (n : Z) (sticky : bool) : Z :=
  let sh := Z.log2 n + 1 - 53 in
  if sh <=? 0 then n
  else
    let q := Z.shiftr n sh in
    let rem := Z.land n (Z.ones sh) in
    let half := Z.shiftl 1 (sh - 1) in
    let up := (half <? rem) || ((rem =? half) && (sticky || Z.odd q)) in
    Z.shiftl (if up then q + 1 else q) sh.

(** The numerator over 2^128 of the double [a / b], for integers
    [0 ≤ a] and [0 < b] below 2^53. *)
Definition double_quotient (a b : Z) : Z :=
  round53_sticky ((a * 2 ^ 128) `div` b)
    (negb ((a * 2 ^ 128) `mod` b =? 0)).

(** The integer [n] of [toFixed(2)]: [n / 100] is as close as possible to
    the number, and the larger one is taken of two that are as close. *)
Definition hundredths (num : Z) : Z :=
  (200 * num + 2 ^ 128) `div` 2 ^ 129.

(** The digits of [n] with a point before the last two. *)
Definition fixed2 (n : Z) : string :=
  pretty (n `div` 100) +:+ "." +:+
  String (pretty_N_char (Z.to_N ((n `mod` 100) `div` 10)))
    (String (pretty_N_char (Z.to_N (n `mod` 10))) "").

(** [Math.min(MAX_SPEED_MULTIPLIER, BASE_SPEED_MS / s).toFixed(2)] for an
    integer [s]: a division by 0 gives Infinity, of which the minimum
    with 3 is 3; a negative number is printed with its sign. *)
Definition speedX (s : Z) : string :=
  if s =? 0 then fixed2 (hundredths (MAX_SPEED_MULTIPLIER * 2 ^ 128))
  else
    let q := double_quotient BASE_SPEED_MS (Z.abs s) in
    if 0 <? s
    then fixed2 (hundredths (Z.min (MAX_SPEED_MULTIPLIER * 2 ^ 128) q))
    else "-" +:+ fixed2 (hundredths q).

(** [updateHud()]. *)
Definition updateHud (g : SnakeGame) (d : Dom) : Dom :=
  {| scoreEl := pretty (score g);
     bestEl := String_jsnum (bestScore g);
     speedEl := speedX (speedIntervalMs g) +:+ "x";
     btnPause := if isPaused g then "Resume" else "Pause";
     overlayTitle := overlayTitle d;
     overlaySubtitle := overlaySubtitle d;
     overlay_hidden := overlay_hidden d |}.

(** [showOverlay(title, subtitle)]. *)
Definition showOverlay (title subtitle : string) (d : Dom) : Dom :=
  {| scoreEl := scoreEl d; bestEl := bestEl d; speedEl := speedEl d;
     btnPause := btnPause d;
     overlayTitle := title;
     overlaySubtitle := subtitle;
     overlay_hidden := false |}.

(** [hideOverlay()]. *)
Definition hideOverlay (d : Dom) : Dom :=
  {| scoreEl := scoreEl d; bestEl := bestEl d; speedEl := speedEl d;
     btnPause := btnPause d;
     overlayTitle := overlayTitle d;
     overlaySubtitle := overlaySubtitle d;
     overlay_hidden := true |}.

(** What [reset] writes, after its assignments: [updateHud()] and then
    [hideOverlay()]. *)
Definition reset_dom (r : nat) (g : SnakeGame) (d : Dom) : Dom :=
  hideOverlay (updateHud (reset r g) d).

(** What [togglePause] writes: nothing on a finished game; otherwise the
    overlay is shown or hidden after the flag is flipped, and the HUD is
    updated last. *)
Definition togglePause_dom (g : SnakeGame) (d : Dom) : Dom :=
  if isGameOver g then d
  else
    let g1 := set_isPaused (negb (isPaused g)) g in
    updateHud g1
      (if isPaused g1
       then showOverlay "Paused" "Press Space or tap Resume" d
       else hideOverlay d).

(** What [gameOver] writes, after its assignments. *)
Definition gameOver_dom (g : SnakeGame) (d : Dom) : Dom :=
  updateHud (gameOver g)
    (showOverlay "Game Over" "Press R to restart or tap Restart" d).

(** What [tick] writes, branch by branch as in [tick]: nothing when it
    returns at once, what [gameOver] writes on a collision, and the HUD
    at the end otherwise. *)
Definition tick_dom (r : nat) (g : SnakeGame) (d : Dom) : Dom :=
  if isPaused g || isGameOver g then d
  else
    let g1 := set_currentDirection (pendingDirection g) g in
    match snake g1 with
    | [] => d
    | head :: _ =>
        let nextHead := next_head head (currentDirection g1) in
        if out_of_grid nextHead then gameOver_dom g1 d
        else if hits_body (snake g1) nextHead then gameOver_dom g1 d
        else
          let g2 := set_snake (nextHead :: snake g1) g1 in
          if posEquals nextHead (food g2) then updateHud (eat r g2) d
          else updateHud (set_snake (removelast (snake g2)) g2) d
    end.

(** The page after a call; [setDirection] writes nothing. *)
Definition step_dom (c : command) (g : SnakeGame) (d : Dom) : Dom :=
  match c with
  | Reset r => reset_dom r g d
  | SetDirection _ => d
  | TogglePause => togglePause_dom g d
  | Tick r => tick_dom r g d
  end.

(** The game and the page of a process: built by the constructor, whose
    [reset] writes over the page as loaded, and led on by the calls. *)
Inductive page_reachable : SnakeGame → Dom → Prop :=
  | page_new ls r d0 :
      page_reachable (constructor ls r)
        (hideOverlay (updateHud (constructor ls r) d0))
  | page_step g d c g' :
      page_reachable g d → step c g = Some g' →
      page_reachable g' (step_dom c g d).

(** The speed that the HUD shows, one entry for every five points. *)
Definition speed_table : list string :=
  ["1.00x"; "1.09x"; "1.19x"; "1.30x"; "1.43x"; "1.56x"; "1.71x"; "1.88x";
   "2.07x"; "2.26x"; "2.50x"].

(** The page shows the game: the counters, the label of the button and
    the overlay are those of the state. *)
Definition page_shows (g : SnakeGame) (d : Dom) : Prop :=
  scoreEl d = pretty (score g) ∧
  bestEl d = String_jsnum (bestScore g) ∧
  speedEl d = speedX (speedIntervalMs g) +:+ "x" ∧
  btnPause d = (if isPaused g then "Resume" else "Pause") ∧
  overlay_hidden d = negb (isPaused g || isGameOver g) ∧
  (isPaused g = true →
   overlayTitle d = "Paused" ∧
   overlaySubtitle d = "Press Space or tap Resume") ∧
  (isGameOver g = true →
   overlayTitle d = "Game Over" ∧
   overlaySubtitle d = "Press R to restart or tap Restart").

(** The calls of a list, on the game and on the page. *)
Fixpoint run_page (cs : list command) (g : SnakeGame) (d : Dom)
  : option (SnakeGame * Dom) :=
  match cs with
  | [] => Some (g, d)
  | c :: cs' =>
      match step c g with
      | Some g' => run_page cs' g' (step_dom c g d)
      | None => None
      end
  end.

(** A page that holds no text yet, and the page of a fresh process that
    started from it with the food above the head. *)
Definition blank_page : Dom := mkDom "" "" "" "" "" "" false.

Definition fresh_page : Dom :=
  hideOverlay (updateHud (constructor ∅ 193) blank_page).

(** ** Input: the keyboard *)

(** The map [KEY_TO_DIR]. *)
Definition KEY_TO_DIR : gmap string Directions.t :=
  list_to_map
    [("ArrowUp", Directions.Up); ("KeyW", Directions.Up);
     ("ArrowDown", Directions.Down); ("KeyS", Directions.Down);
     ("ArrowLeft", Directions.Left); ("KeyA", Directions.Left);
     ("ArrowRight", Directions.Right); ("KeyD", Directions.Right)].

(** The [keydown] listener, for the event code [code]: the game after
    it, and whether it called [preventDefault].  [r] is the draw of the
    [reset] that the key R calls. *)
Definition keydown (r : nat) (code : string) (g : SnakeGame)
  : SnakeGame * bool :=
  match KEY_TO_DIR !! code with
  | Some dir => (setDirection (Some dir) g, true)
  | None =>
      if decide (code = "Space") then (togglePause g, true)
      else if decide (code = "KeyR") then (reset r g, true)
      else (g, false)
  end.

(** The codes that the listener handles. *)
Definition handled_codes : list string :=
  ["ArrowUp"; "KeyW"; "ArrowDown"; "KeyS"; "ArrowLeft"; "KeyA";
   "ArrowRight"; "KeyD"; "Space"; "KeyR"].

(** ** Rendering

    The canvas context is modelled by the list of the calls made on it.
    [clientWidth] and [clientHeight] are non-negative integers, and so are
    all the coordinates that [render] computes. *)

Inductive ctx_op : Type :=
  | FillStyle (color : string)
  | FillRect (x y w h : Z)
  | BeginPath
  | MoveTo (x y : Z)
  | ArcTo (x1 y1 x2 y2 r : Z)
  | ClosePath
  | Fill.

#[global] Instance ctx_op_eq_dec : EqDecision ctx_op.
Proof. solve_decision. Defined.

(** The colours read from the style sheet when the script starts. *)
Record Palette : Type := mkPalette {
  COLOR_BACKGROUND_A : string;
  COLOR_BACKGROUND_B : string;
  COLOR_SNAKE : string;
  COLOR_SNAKE_HEAD : string;
  COLOR_FOOD : string
}.

(** A double, as a mantissa and the binary places behind the point. *)
Definition double : Type := Z * Z.

(** The literals 0.25, which is exact, and 0.35, whose nearest double is
    6305039478318694 / 2^54. *)
Definition RADIUS_BODY : double := (1, 2).
Definition RADIUS_HEAD : double := (6305039478318694, 54).

(** [Math.floor(c * frac)] for an integer [c]: the product is rounded to
    53 significant bits and floored. *)
Definition floor_times_double (c : Z) (frac : double) : Z :=
  (Z.sgn c * round53 (Z.abs c * frac.1)) `div` 2 ^ frac.2.

(** [roundRect(ctx2d, x, y, w, h, r)]. *)
Definition roundRect (x y w h r : Z) : list ctx_op :=
  [BeginPath;
   MoveTo (x + r) y;
   ArcTo (x + w) y (x + w) (y + h) r;
   ArcTo (x + w) (y + h) x (y + h) r;
   ArcTo x (y + h) x y r;
   ArcTo x y (x + w) y r;
   ClosePath].

(** [drawRoundedCell(x, y, cellSize, offsetX, offsetY, color,
    radiusFrac)]. *)
Definition drawRoundedCell (x y cellSize offsetX offsetY : Z)
  (color : string) (radiusFrac : double) : list ctx_op :=
  let r := Z.max 2 (floor_times_double cellSize radiusFrac) in
  let px := offsetX + x * cellSize in
  let py := offsetY + y * cellSize in
  let w := cellSize in
  let h := cellSize in
  [FillStyle color] ++ roundRect (px + 1) (py + 1) (w - 2) (h - 2) r
  ++ [Fill].

(** The side of a cell and the offsets of the grid in [render]. *)
Definition cellSize (width height : Z) : Z :=
  Z.min (double_quotient width GRID_COLUMNS)
        (double_quotient height GRID_ROWS) `div` 2 ^ 128.

Definition offsetX (width height : Z) : Z :=
  double_quotient (width - cellSize width height * GRID_COLUMNS) 2
  `div` 2 ^ 128.

Definition offsetY (width height : Z) : Z :=
  double_quotient (height - cellSize width height * GRID_ROWS) 2
  `div` 2 ^ 128.

(** The checker: the darker squares, row by row. *)
Definition render_checker (pal : Palette) (cell ox oy : Z) : list ctx_op :=
  row ← seqZ 0 GRID_ROWS; col ← seqZ 0 GRID_COLUMNS;
  if Z.rem (col + row) 2 =? 1
  then [FillStyle (COLOR_BACKGROUND_B pal);
        FillRect (ox + col * cell) (oy + row * cell) cell cell]
  else [].

(** The loop over the snake: [i] counts down from the last index to 0,
    and the segment at index 0 is drawn as the head. *)
Fixpoint render_snake (rounds : nat) (pal : Palette) (snake : list Pos.t)
  (cell ox oy : Z) : list ctx_op :=
  match rounds with
  | O => []
  | S i =>
      match snake !! i with
      | Some segment =>
          let isHead := bool_decide (i = 0%nat) in
          let color := if isHead then COLOR_SNAKE_HEAD pal
                       else COLOR_SNAKE pal in
          let radius := if isHead then RADIUS_HEAD else RADIUS_BODY in
          drawRoundedCell (Pos.x segment) (Pos.y segment) cell ox oy
            color radius
      | None => []
      end ++ render_snake i pal snake cell ox oy
  end.

(** [render()], for a canvas of [width] by [height]. *)
Definition render (pal : Palette) (width height : Z) (g : SnakeGame)
  : list ctx_op :=
  let cell := cellSize width height in
  let ox := offsetX width height in
  let oy := offsetY width height in
  [FillStyle (COLOR_BACKGROUND_A pal); FillRect 0 0 width height]
  ++ render_checker pal cell ox oy
  ++ drawRoundedCell (Pos.x (food g)) (Pos.y (food g)) cell ox oy
       (COLOR_FOOD pal) RADIUS_BODY
  ++ render_snake (length (snake g)) pal (snake g) cell ox oy.


(** The colours of the variables' fallbacks. *)
Definition default_palette : Palette :=
  mkPalette "#0e1623" "#0c1320" "#22d3ee" "#6ee7b7" "#f59e0b".

(** Tests on the calls, for counting them. *)
Definition is_Fill (op : ctx_op) : bool :=
  match op with Fill => true | _ => false end.

Definition is_FillRect (op : ctx_op) : bool :=
  match op with FillRect _ _ _ _ => true | _ => false end.

Definition count_ops (test : ctx_op → bool) (ops : list ctx_op) : nat :=
  length (filter (λ op, test op = true) ops).

(** ** The loop

    The two timing properties of the game, [lastTickAt] and
    [accumulator].  Timestamps are whole numbers of milliseconds, as the
    clock of a browser that rounds them gives; the sums and differences
    of the loop are then exact. *)

Record Clock : Type := mkClock {
  lastTickAt : Z;
  accumulator : Z
}.

(** What [reset] assigns to the clock, [now] being
    [performance.now()]. *)
Definition reset_clock (now : Z) : Clock :=
  {| lastTickAt := now; accumulator := 0 |}.

(** What [togglePause] assigns to the clock: [lastTickAt] on a resume,
    and nothing on a pause or on a finished game. *)
Definition togglePause_clock (now : Z) (g : SnakeGame) (clk : Clock)
  : Clock :=
  if isGameOver g then clk
  else if negb (isPaused g) then clk
  else {| lastTickAt := now; accumulator := accumulator clk |}.

(** The [while] loop of [loop], with the interval read before it.  The
    tick number [k] draws [draws k].  [None] is the loop that has not
    stopped when the fuel ends, or the TypeError of [tick]. *)
Fixpoint loop_while (fuel : nat) (interval : Z) (draws : nat → nat)
  (k : nat) (g : SnakeGame) (acc : Z) : option (SnakeGame * Z * nat) :=
  if interval <=? acc then
    match fuel with
    | O => None
    | S fuel' =>
        match tick (draws k) g with
        | Some g' => loop_while fuel' interval draws (S k) g' (acc - interval)
        | None => None
        end
    end
  else Some (g, acc, k).

(** One frame of [loop(now)]: the game, the clock and the number of
    ticks when it reaches [render]. *)
Definition loop (fuel : nat) (draws : nat → nat) (now : Z)
  (g : SnakeGame) (clk : Clock) : option (SnakeGame * Clock * nat) :=
  let dt := now - lastTickAt clk in
  let acc := accumulator clk + dt in
  let interval := speedIntervalMs g in
  match loop_while fuel interval draws 0 g acc with
  | Some (g', acc', n) =>
      Some (g', {| lastTickAt := now; accumulator := acc' |}, n)
  | None => None
  end.


(** The draws of an example: always 0. *)
Definition no_luck (k : nat) : nat := 0%nat.

(** A snake that fills the grid: row after row, each in the direction
    opposite to the one before, with its head in the corner (0,0); and a
    running game with that snake. *)
Definition serpentine : list Pos.t :=
  row ← seqZ 0 GRID_ROWS;
  (if Z.even row then id else reverse)
    ((λ col, Pos.mk col row) <$> seqZ 0 GRID_COLUMNS).

Definition full_game : SnakeGame :=
  set_food (Pos.mk 0 0)
    (set_score 437 (set_snake serpentine fresh_game)).

(** * Strings of numbers *)

Lemma string_app_nil (t : string) : "" +:+ t = t.
Proof. reflexivity. Qed.

Lemma string_app_cons c (s t : string) :
  String c s +:+ t = String c (s +:+ t).
Proof. reflexivity. Qed.

Lemma string_app_assoc (s t u : string) :
  (s +:+ t) +:+ u = s +:+ (t +:+ u).
Proof.
  induction s as [|c s IH]; [done|].
  by rewrite !string_app_cons, IH.
Qed.

Lemma string_forallb_app f s t :
  string_forallb f (s +:+ t) = string_forallb f s && string_forallb f t.
Proof.
  induction s as [|c s IH]; [done|].
  rewrite string_app_cons. simpl. by rewrite IH, andb_assoc.
Qed.

Lemma string_forallb_impl (f g : ascii → bool) s :
  (∀ c, f c = true → g c = true) →
  string_forallb f s = true → string_forallb g s = true.
Proof.
  intros Hfg. induction s as [|c s IH]; simpl; [done|].
  rewrite !andb_true_iff. intros [Hc Hs]. auto.
Qed.

Lemma pretty_N_char_digit x : is_digit (pretty_N_char x) = true.
Proof. unfold pretty_N_char. by repeat case_match. Qed.

Lemma pretty_N_char_value x :
  (x < 10)%N → digit_value (pretty_N_char x) = Some (Z.of_N x).
Proof.
  intros Hx.
  assert (x = 0 ∨ x = 1 ∨ x = 2 ∨ x = 3 ∨ x = 4 ∨ x = 5 ∨ x = 6
          ∨ x = 7 ∨ x = 8 ∨ x = 9)%N as Hcases by lia.
  repeat (destruct Hcases as [->|Hcases]; [done|]). by subst.
Qed.

(** [pretty_N_go x s] writes the digits of [x] in front of [s]. *)
Lemma pretty_N_go_digits x :
  ∃ d p, (∀ s, pretty_N_go x s = d +:+ s) ∧
         string_forallb is_digit d = true ∧
         (x ≠ 0%N → d ≠ "") ∧
         (∀ acc s, digits_value acc (d +:+ s)
                   = digits_value (acc * p + Z.of_N x) s).
Proof.
  induction (N.lt_wf_0 x) as [x _ IH].
  assert (x = 0 ∨ 0 < x)%N as [->|Hpos] by lia.
  { exists "", 1. repeat split; [done..|]. intros acc s.
    rewrite string_app_nil. f_equal. lia. }
  destruct (IH (x `div` 10)%N) as (d & p & Hgo & Hdig & _ & Hval).
  { by apply N.div_lt. }
  exists (d +:+ String (pretty_N_char (x `mod` 10)) ""), (p * 10).
  split; [|split; [|split]].
  - intros s. rewrite pretty_N_go_step, Hgo by done.
    by rewrite string_app_assoc.
  - rewrite string_forallb_app, Hdig. simpl.
    by rewrite pretty_N_char_digit.
  - intros _. by destruct d.
  - intros acc s. rewrite string_app_assoc, Hval.
    rewrite string_app_cons, string_app_nil. simpl.
    rewrite pretty_N_char_value by (apply N.mod_lt; lia).
    f_equal. rewrite (N.div_mod x 10) at 3 by lia.
    rewrite N2Z.inj_add, N2Z.inj_mul. lia.
Qed.

Lemma string_app_nil_r (s : string) : s +:+ "" = s.
Proof.
  induction s as [|c s IH]; [done|]. by rewrite string_app_cons, IH.
Qed.

(** The decimal form of a positive number: digits, at least one, whose
    value is the number. *)
Lemma pretty_positive_digits (p : positive) :
  string_forallb is_digit (pretty p) = true ∧
  pretty p ≠ "" ∧
  digits_value 0 (pretty p) = Some (Z.pos p).
Proof.
  unfold pretty, pretty_positive, pretty, pretty_N.
  case_decide as Hp; [done|].
  destruct (pretty_N_go_digits (N.pos p)) as (d & q & Hgo & Hdig & Hne & Hval).
  rewrite Hgo, string_app_nil_r. split; [done|]. split; [by apply Hne|].
  rewrite <-(string_app_nil_r d), Hval. simpl. f_equal.
Qed.

Lemma is_digit_number_char c : is_digit c = true → is_number_char c = true.
Proof. unfold is_number_char. by intros ->. Qed.

Lemma pretty_Z_number_chars (z : Z) :
  string_forallb is_number_char (pretty z) = true.
Proof.
  destruct z as [|p|p]; unfold pretty, pretty_Z; [done| |].
  - eapply string_forallb_impl; [apply is_digit_number_char|].
    apply pretty_positive_digits.
  - rewrite string_app_cons, string_app_nil. simpl.
    eapply string_forallb_impl; [apply is_digit_number_char|].
    apply pretty_positive_digits.
Qed.

(** Two texts joined by a separator that occurs in neither first part
    split in one way only. *)
Lemma string_split_unique (f : ascii → bool) sep s1 t1 s2 t2 :
  f sep = false →
  string_forallb f s1 = true → string_forallb f s2 = true →
  s1 +:+ String sep t1 = s2 +:+ String sep t2 →
  s1 = s2 ∧ t1 = t2.
Proof.
  intros Hsep. revert s2.
  induction s1 as [|c s1 IH]; intros [|c' s2]; simpl;
    rewrite ?string_app_nil, ?string_app_cons, ?andb_true_iff.
  - intros _ _ [= ->]. done.
  - intros _ [Hc' _] [= <- _]. congruence.
  - intros [Hc _] _ [= -> _]. congruence.
  - intros [_ H1] [_ H2] [= -> Heq].
    destruct (IH s2 H1 H2 Heq) as [-> ->]. done.
Qed.

(** Distinct cells have distinct keys, so that membership of a key in
    [snakeSet] is membership of the cell in the snake. *)
Lemma cellKey_inj (p q : Pos.t) : cellKey p = cellKey q → p = q.
Proof.
  destruct p as [px py], q as [qx qy]. unfold cellKey. simpl.
  intros Heq.
  apply (string_split_unique is_number_char) in Heq as [Hx Hy];
    [|done|apply pretty_Z_number_chars..].
  apply (inj pretty) in Hx. apply (inj pretty) in Hy. by subst.
Qed.

Lemma elem_of_snakeSet (p : Pos.t) (snake : list Pos.t) :
  cellKey p ∈ snakeSet snake ↔ p ∈ snake.
Proof.
  unfold snakeSet. rewrite elem_of_list_to_set, list_elem_of_fmap.
  split.
  - intros (q & Hkey & Hq). by rewrite (cellKey_inj _ _ Hkey).
  - intros Hp. by exists p.
Qed.

(** * The grid and the empty cells *)

Lemma out_of_grid_false (p : Pos.t) : out_of_grid p = false ↔ in_grid p.
Proof.
  unfold out_of_grid, in_grid.
  rewrite !orb_false_iff, !Z.ltb_ge, !Z.leb_gt. lia.
Qed.

Lemma out_of_grid_true (p : Pos.t) : out_of_grid p = true ↔ ¬ in_grid p.
Proof.
  rewrite <-out_of_grid_false. by destruct (out_of_grid p).
Qed.

Lemma posEquals_true (a b : Pos.t) : posEquals a b = true ↔ a = b.
Proof.
  destruct a as [ax ay], b as [bx by']. unfold posEquals. simpl.
  rewrite andb_true_iff, !Z.eqb_eq. split; [intros [-> ->]|intros [= -> ->]]; done.
Qed.

Lemma posEquals_false (a b : Pos.t) : posEquals a b = false ↔ a ≠ b.
Proof.
  rewrite <-posEquals_true. by destruct (posEquals a b).
Qed.

Lemma hits_body_true (segments : list Pos.t) (p : Pos.t) :
  hits_body segments p = true ↔ p ∈ segments.
Proof.
  induction segments as [|s rest IH]; simpl.
  - split; [done|]. by intros ?%elem_of_nil.
  - rewrite elem_of_cons. destruct (posEquals s p) eqn:Heq.
    + apply posEquals_true in Heq as ->. split; [by left|done].
    + apply posEquals_false in Heq. rewrite IH.
      split; [by right|]. by intros [->|?].
Qed.

Lemma hits_body_false (segments : list Pos.t) (p : Pos.t) :
  hits_body segments p = false ↔ p ∉ segments.
Proof.
  rewrite <-hits_body_true. by destruct (hits_body segments p).
Qed.

Lemma elem_of_spaces (p : Pos.t) : p ∈ spaces ↔ in_grid p.
Proof.
  unfold spaces, in_grid. rewrite list_elem_of_bind. split.
  - intros (row & Hp & Hrow). apply list_elem_of_bind in Hp as (col & Hp & Hcol).
    apply list_elem_of_ret in Hp as ->. simpl.
    apply elem_of_seqZ in Hrow, Hcol. lia.
  - intros [Hx Hy]. exists (Pos.y p). split; [|apply elem_of_seqZ; lia].
    apply list_elem_of_bind. exists (Pos.x p).
    split; [|apply elem_of_seqZ; lia].
    apply list_elem_of_ret. by destruct p.
Qed.

Lemma NoDup_spaces : NoDup spaces.
Proof.
  unfold spaces. apply NoDup_bind; [| |apply NoDup_seqZ].
  - intros r1 r2 p _ _ H1 H2.
    apply list_elem_of_bind in H1 as (c1 & ->%list_elem_of_ret & _).
    apply list_elem_of_bind in H2 as (c2 & [= _ ->]%list_elem_of_ret & _).
    done.
  - intros row _. apply NoDup_bind; [| |apply NoDup_seqZ].
    + intros c1 c2 p _ _ ->%list_elem_of_ret [= ->]%list_elem_of_ret. done.
    + intros col _. apply NoDup_singleton.
Qed.

Lemma elem_of_emptyCells (snake : list Pos.t) (p : Pos.t) :
  p ∈ emptyCells snake ↔ in_grid p ∧ p ∉ snake.
Proof.
  unfold emptyCells.
  rewrite list_elem_of_filter, elem_of_snakeSet, elem_of_spaces. tauto.
Qed.

Lemma NoDup_emptyCells (snake : list Pos.t) : NoDup (emptyCells snake).
Proof. apply NoDup_filter, NoDup_spaces. Qed.

Lemma randomInt_lt (r n : nat) : n ≠ 0%nat → (randomInt r n < n)%nat.
Proof.
  intros Hn. unfold randomInt. destruct n; [done|].
  by apply Nat.mod_upper_bound.
Qed.

Lemma randomInt_small (i n : nat) : (i < n)%nat → randomInt i n = i.
Proof.
  intros Hi. unfold randomInt. destruct n; [lia|]. by apply Nat.mod_small.
Qed.

(** With an empty cell left, [spawnFood] returns the entry of [empty] at
    the index drawn. *)
Lemma spawnFood_lookup (r : nat) (snake : list Pos.t) :
  emptyCells snake ≠ [] →
  emptyCells snake !! randomInt r (length (emptyCells snake))
  = Some (spawnFood r snake).
Proof.
  intros Hne. unfold spawnFood.
  assert (length (emptyCells snake) ≠ 0%nat) as Hlen.
  { by destruct (emptyCells snake). }
  rewrite bool_decide_true by done.
  destruct (lookup_lt_is_Some_2 (emptyCells snake)
              (randomInt r (length (emptyCells snake)))) as [p Hp].
  { by apply randomInt_lt. }
  by rewrite Hp.
Qed.

Lemma spawnFood_full (r : nat) (snake : list Pos.t) :
  emptyCells snake = [] → spawnFood r snake = Pos.mk 0 0.
Proof. intros Hnil. unfold spawnFood. by rewrite Hnil. Qed.

Lemma spawnFood_unoccupied (r : nat) (snake : list Pos.t) :
  emptyCells snake ≠ [] →
  in_grid (spawnFood r snake) ∧ spawnFood r snake ∉ snake.
Proof.
  intros Hne. apply elem_of_emptyCells.
  eapply list_elem_of_lookup_2, spawnFood_lookup, Hne.
Qed.

(** Each entry of [empty] is returned for exactly one value of the
    index. *)
Lemma draws_giving_one (snake : list Pos.t) (p : Pos.t) :
  p ∈ emptyCells snake → draws_giving snake p = 1%nat.
Proof.
  intros Hp. unfold draws_giving.
  assert (emptyCells snake ≠ []) as Hne by (by intros Hnil; rewrite Hnil in Hp;
    apply elem_of_nil in Hp).
  destruct (proj1 (list_elem_of_lookup _ _) Hp) as [j Hj].
  assert (j < length (emptyCells snake))%nat as Hjlt
    by (apply lookup_lt_is_Some; eauto).
  rewrite (Permutation_length (l' := [j])); [done|].
  apply NoDup_Permutation.
  - apply NoDup_filter, NoDup_seq.
  - apply NoDup_singleton.
  - intros i. rewrite list_elem_of_filter, elem_of_seq, list_elem_of_singleton.
    split.
    + intros [Hfood [_ Hi]].
      pose proof (spawnFood_lookup i snake Hne) as Hlk.
      rewrite randomInt_small, Hfood in Hlk by lia.
      eapply NoDup_lookup; eauto using NoDup_emptyCells.
    + intros ->. split; [|lia].
      pose proof (spawnFood_lookup j snake Hne) as Hlk.
      rewrite randomInt_small, Hj in Hlk by lia. congruence.
Qed.

(** * spawnFood *)

(** C9.  [empty] lists, without repetition, exactly the cells of the grid
    that no segment of the snake occupies.  When such a cell exists,
    [spawnFood] returns the entry of [empty] at [randomInt(empty.length)]:
    the result is a cell of the grid off the snake, it depends on the draw
    through that index only, and each unoccupied cell is returned for
    exactly one of the [empty.length] values of the index, so that a
    uniform index gives a uniform cell.  When the snake occupies every
    cell, [spawnFood] returns the corner (0,0). *)
Theorem spawnFood_uniform_or_corner (snake : list Pos.t) :
  (∀ p, p ∈ emptyCells snake ↔ in_grid p ∧ p ∉ snake) ∧
  NoDup (emptyCells snake) ∧
  ((∃ p, in_grid p ∧ p ∉ snake) →
     ∀ r,
       in_grid (spawnFood r snake) ∧ (spawnFood r snake ∉ snake) ∧
       (randomInt r (length (emptyCells snake))
          < length (emptyCells snake))%nat ∧
       emptyCells snake !! randomInt r (length (emptyCells snake))
         = Some (spawnFood r snake) ∧
       ∀ p, in_grid p → p ∉ snake → draws_giving snake p = 1%nat) ∧
  ((∀ p, in_grid p → p ∈ snake) → ∀ r, spawnFood r snake = Pos.mk 0 0).
Proof.
  split; [apply elem_of_emptyCells|]. split; [apply NoDup_emptyCells|]. split.
  - intros (q & Hq & Hfree) r.
    assert (emptyCells snake ≠ []) as Hne.
    { intros Hnil. assert (q ∈ emptyCells snake) as Hin.
      { by apply elem_of_emptyCells. }
      rewrite Hnil in Hin. by apply elem_of_nil in Hin. }
    destruct (spawnFood_unoccupied r snake Hne) as [Hgrid Hoff].
    split; [done|]. split; [done|]. split.
    { apply randomInt_lt. by destruct (emptyCells snake). }
    split; [by apply spawnFood_lookup|].
    intros p Hp Hp'. by apply draws_giving_one, elem_of_emptyCells.
  - intros Hfull r. apply spawnFood_full.
    destruct (emptyCells snake) as [|p l] eqn:Hcells; [done|].
    assert (p ∈ emptyCells snake) as Hp by (rewrite Hcells; left).
    apply elem_of_emptyCells in Hp as [Hgrid Hoff].
    destruct Hoff. by apply Hfull.
Qed.

(** On the snake that [reset] builds, with the draw 88: the cell (4,4). *)
Lemma spawnFood_uniform_or_corner_witness :
  spawnFood 88 initial_snake = Pos.mk 4 4 ∧
  in_grid (spawnFood 88 initial_snake) ∧
  (spawnFood 88 initial_snake ∉ initial_snake) ∧
  draws_giving initial_snake (Pos.mk 0 0) = 1%nat.
Proof.
  assert (in_grid (Pos.mk 0 0) ∧ Pos.mk 0 0 ∉ initial_snake) as Hfree.
  { split; [by apply out_of_grid_false|by apply hits_body_false]. }
  destruct (spawnFood_uniform_or_corner initial_snake)
    as (_ & _ & Hsome & _).
  destruct (Hsome (ex_intro _ _ Hfree) 88%nat) as (Hg & Ho & _ & _ & Hone).
  split; [vm_compute; reflexivity|]. split; [done|]. split; [done|].
  apply Hone; apply Hfree.
Defined.

(** * Lists as arrays *)

Lemma removelast_cons {A} (a : A) (l : list A) :
  l ≠ [] → removelast (a :: l) = a :: removelast l.
Proof. by destruct l. Qed.

Lemma elem_of_removelast {A} (x : A) (l : list A) :
  x ∈ removelast l → x ∈ l.
Proof.
  induction l as [|a l IH]; [done|].
  destruct l as [|b l]; [by intros ?%elem_of_nil|].
  rewrite removelast_cons by done.
  intros [->|Hx]%elem_of_cons; apply elem_of_cons; [by left|].
  right. by apply IH.
Qed.

Lemma NoDup_removelast {A} (l : list A) : NoDup l → NoDup (removelast l).
Proof.
  induction 1 as [|a l Ha Hl IH]; [constructor|].
  destruct l as [|b l]; [constructor|].
  rewrite removelast_cons by done. constructor; [|done].
  intros Hin. by apply Ha, elem_of_removelast.
Qed.

Lemma length_removelast_cons {A} (a : A) (l : list A) :
  length (removelast (a :: l)) = length l.
Proof.
  revert a. induction l as [|b l IH]; intros a; [done|].
  rewrite removelast_cons by done. cbn [length]. by rewrite IH.
Qed.

(** * The snake that reset builds *)

Lemma initial_snake_cells :
  initial_snake = [Pos.mk 4 10; Pos.mk 5 10; Pos.mk 6 10; Pos.mk 7 10].
Proof. reflexivity. Qed.

Lemma initial_snake_NoDup : NoDup initial_snake.
Proof.
  rewrite initial_snake_cells.
  repeat (apply NoDup_cons; split;
          [rewrite <-hits_body_false; reflexivity|]).
  constructor.
Qed.

Lemma initial_snake_leaves_room : emptyCells initial_snake ≠ [].
Proof.
  assert (Pos.mk 0 0 ∈ emptyCells initial_snake) as Hin.
  { apply elem_of_emptyCells.
    split; [by apply out_of_grid_false|by apply hits_body_false]. }
  intros Hnil. rewrite Hnil in Hin. by apply elem_of_nil in Hin.
Qed.

(** * The invariant *)

Lemma isOpposite_same (d : Directions.t) : isOpposite d d = false.
Proof. by destruct d. Qed.

Lemma corner_in_grid : in_grid (Pos.mk 0 0).
Proof. by apply out_of_grid_false. Qed.

(** The food that [spawnFood] returns for a snake. *)
Lemma spawnFood_inv (r : nat) (l : list Pos.t) :
  in_grid (spawnFood r l) ∧ (spawnFood r l ∉ l ∨ emptyCells l = []).
Proof.
  destruct (decide (emptyCells l = [])) as [Hnil|Hne].
  - rewrite spawnFood_full by done. split; [apply corner_in_grid|by right].
  - destruct (spawnFood_unoccupied r l Hne). split; [done|by left].
Qed.

Lemma game_inv_reset (r : nat) (g : SnakeGame) : game_inv (reset r g).
Proof.
  split; simpl.
  - done.
  - apply initial_snake_NoDup.
  - done.
  - done.
  - done.
  - apply spawnFood_inv.
Qed.

Lemma game_inv_setDirection dir (g : SnakeGame) :
  game_inv g → game_inv (setDirection dir g).
Proof.
  intros [Hlen Hnd Hsp Hsc Hdir Hfood].
  destruct dir as [d|]; simpl; [|done].
  destruct (isOpposite d (currentDirection g)) eqn:Hopp; done.
Qed.

Lemma game_inv_togglePause (g : SnakeGame) :
  game_inv g → game_inv (togglePause g).
Proof.
  intros [Hlen Hnd Hsp Hsc Hdir Hfood]. unfold togglePause.
  by destruct (isGameOver g).
Qed.

Lemma game_inv_gameOver (g : SnakeGame) :
  game_inv g → game_inv (gameOver g).
Proof.
  intros [Hlen Hnd Hsp Hsc Hdir Hfood]. unfold gameOver.
  by destruct (js_gt _ _).
Qed.

(** * The speed-up step *)

(** On the intervals the game can have, the floored floating-point product
    is the floor of 92 hundredths of the interval. *)
Lemma floor_times_SPEEDUP_PERCENT_exact (s : Z) :
  0 ≤ s ≤ BASE_SPEED_MS →
  floor_times_SPEEDUP_PERCENT s = (s * 92) `div` 100.
Proof.
  intros Hs.
  assert (Forall (λ s, floor_times_SPEEDUP_PERCENT s = (s * 92) `div` 100)
                 (seqZ 0 (BASE_SPEED_MS + 1))) as Hall.
  { apply (bool_decide_unpack _). vm_compute. exact I. }
  rewrite Forall_forall in Hall. apply Hall, elem_of_seqZ. lia.
Qed.

Lemma speedup_bounds (s : Z) :
  45 ≤ s ≤ BASE_SPEED_MS →
  45 ≤ Z.max 45 (floor_times_SPEEDUP_PERCENT s) ≤ s.
Proof.
  intros Hs. rewrite floor_times_SPEEDUP_PERCENT_exact by lia.
  assert ((s * 92) `div` 100 ≤ s).
  { apply Z.div_le_upper_bound; lia. }
  lia.
Qed.

(** * tick, case by case *)

(** A tick of a running game, as one expression. *)
Lemma tick_running (r : nat) (g : SnakeGame) (h : Pos.t) (t : list Pos.t) :
  isPaused g = false → isGameOver g = false → snake g = h :: t →
  tick r g = Some
    (let p := next_head h (pendingDirection g) in
     let g1 := set_currentDirection (pendingDirection g) g in
     if out_of_grid p then gameOver g1
     else if hits_body (snake g) p then gameOver g1
     else if posEquals p (food g)
          then eat r (set_snake (p :: snake g) g1)
          else set_snake (removelast (p :: snake g))
                 (set_snake (p :: snake g) g1)).
Proof.
  intros Hp Ho Hs. unfold tick. rewrite Hp, Ho. simpl. rewrite Hs. simpl.
  set (p := next_head h (pendingDirection g)).
  destruct (out_of_grid p); [done|].
  destruct (posEquals h p); [done|].
  destruct (hits_body t p); [done|].
  by destruct (posEquals p (food g)).
Qed.

Lemma tick_idle (r : nat) (g : SnakeGame) :
  isPaused g || isGameOver g = true → tick r g = Some g.
Proof. intros Hidle. unfold tick. by rewrite Hidle. Qed.

(** A tick returns whenever the snake has a head. *)
Lemma tick_total (r : nat) (g : SnakeGame) :
  snake g ≠ [] → ∃ g', tick r g = Some g'.
Proof.
  intros Hne. destruct (isPaused g || isGameOver g) eqn:Hidle.
  { exists g. by apply tick_idle. }
  apply orb_false_iff in Hidle as [Hp Ho].
  destruct (snake g) as [|h t] eqn:Hs; [done|].
  rewrite (tick_running r g h t Hp Ho Hs). eauto.
Qed.

Lemma game_inv_nonempty (g : SnakeGame) : game_inv g → snake g ≠ [].
Proof.
  intros [Hlen _ _ _ _ _] Hnil. rewrite Hnil in Hlen.
  unfold INITIAL_SNAKE_LENGTH in Hlen. simpl in Hlen. lia.
Qed.

(** The food branch restores the invariant on the food, which the snake
    has just covered. *)
Lemma game_inv_eat (r : nat) (g : SnakeGame) :
  (INITIAL_SNAKE_LENGTH ≤ length (snake g))%nat →
  NoDup (snake g) →
  45 ≤ speedIntervalMs g ≤ BASE_SPEED_MS →
  0 ≤ score g →
  isOpposite (pendingDirection g) (currentDirection g) = false →
  game_inv (eat r g).
Proof.
  intros Hlen Hnd Hsp Hsc Hdir. unfold eat.
  destruct (Z.rem _ _ =? 0); split; simpl; try done; try lia;
    try apply spawnFood_inv.
  pose proof (speedup_bounds _ Hsp). lia.
Qed.

Lemma game_inv_tick (r : nat) (g g' : SnakeGame) :
  game_inv g → tick r g = Some g' → game_inv g'.
Proof.
  intros Hinv. destruct (isPaused g || isGameOver g) eqn:Hidle.
  { rewrite tick_idle by done. by intros [= <-]. }
  apply orb_false_iff in Hidle as [Hp Ho].
  pose proof (game_inv_nonempty g Hinv) as Hne.
  destruct (snake g) as [|h t] eqn:Hs; [done|].
  rewrite (tick_running r g h t Hp Ho Hs). intros [= <-]. cbv zeta.
  set (p := next_head h (pendingDirection g)).
  set (g1 := set_currentDirection (pendingDirection g) g).
  assert (game_inv g1) as Hinv1.
  { destruct Hinv as [Hlen Hnd Hsp Hsc Hdir Hfood].
    split; try done. apply isOpposite_same. }
  destruct (out_of_grid p) eqn:Hgrid; [by apply game_inv_gameOver|].
  destruct (hits_body (snake g) p) eqn:Hhit; [by apply game_inv_gameOver|].
  apply out_of_grid_false in Hgrid. apply hits_body_false in Hhit.
  destruct Hinv1 as [Hlen Hnd Hsp Hsc Hdir [Hfg Hfood]].
  destruct (posEquals p (food g)) eqn:Hfood_eq.
  - apply game_inv_eat; simpl; try done.
    + simpl in Hlen. lia.
    + by apply NoDup_cons.
  - apply posEquals_false in Hfood_eq.
    assert (food g ∉ snake g) as Hoff.
    { destruct Hfood as [Hoff|Hfull]; [done|].
      assert (p ∈ emptyCells (snake g)) as Hin
        by (by apply elem_of_emptyCells).
      simpl in Hfull. rewrite Hfull in Hin. by apply elem_of_nil in Hin. }
    assert (length (removelast (p :: snake g)) = length (snake g)) as Hlen'
      by apply length_removelast_cons.
    assert (NoDup (removelast (p :: snake g))) as Hnd'
      by (by apply NoDup_removelast, NoDup_cons).
    assert (food g ∉ removelast (p :: snake g)) as Hoff'.
    { intros Hin%elem_of_removelast.
      apply elem_of_cons in Hin as [Heq|Hin]; [by destruct Hfood_eq|done]. }
    split.
    + change (INITIAL_SNAKE_LENGTH
              ≤ length (removelast (p :: snake g)))%nat.
      rewrite Hlen'. exact Hlen.
    + exact Hnd'.
    + exact Hsp.
    + exact Hsc.
    + exact Hdir.
    + split; [exact Hfg|left; exact Hoff'].
Qed.

Lemma game_inv_step (c : command) (g g' : SnakeGame) :
  game_inv g → step c g = Some g' → game_inv g'.
Proof.
  intros Hinv. destruct c as [r|dir| |r]; simpl.
  - intros [= <-]. apply game_inv_reset.
  - intros [= <-]. by apply game_inv_setDirection.
  - intros [= <-]. by apply game_inv_togglePause.
  - by apply game_inv_tick.
Qed.

Lemma reachable_inv (g : SnakeGame) : reachable g → game_inv g.
Proof.
  induction 1 as [ls r|g c g' _ IH Hstep].
  - apply game_inv_reset.
  - by eapply game_inv_step.
Qed.

(** No command fails in a state of a process: the TypeError of [tick] on
    an empty snake is never met. *)
Lemma step_total (c : command) (g : SnakeGame) :
  game_inv g → ∃ g', step c g = Some g'.
Proof.
  intros Hinv. destruct c as [r|dir| |r]; simpl; eauto.
  by apply tick_total, game_inv_nonempty.
Qed.

Lemma run_total (cs : list command) (g : SnakeGame) :
  game_inv g → ∃ g', run cs g = Some g' ∧ game_inv g'.
Proof.
  revert g. induction cs as [|c cs IH]; intros g Hinv; simpl; [eauto|].
  destruct (step_total c g Hinv) as [g1 Hstep]. rewrite Hstep.
  apply IH. by eapply game_inv_step.
Qed.

(** * Reading back a stored number *)

Lemma is_digit_spec (c : ascii) :
  is_digit c = true →
  is_whitespace c = false ∧ c ≠ "+"%char ∧ c ≠ "-"%char.
Proof. destruct c as [[] [] [] [] [] [] [] []]; done. Qed.

Lemma trim_end_id (s : string) :
  string_forallb (λ c, negb (is_whitespace c)) s = true → trim_end s = s.
Proof.
  induction s as [|c s IH]; simpl; [done|].
  intros [Hc Hs]%andb_true_iff. rewrite IH by done.
  destruct s; [|done]. by destruct (is_whitespace c).
Qed.

Lemma trim_start_id (c : ascii) (s : string) :
  is_whitespace c = false → trim_start (String c s) = String c s.
Proof. intros Hc. simpl. by rewrite Hc. Qed.

Lemma trim_digits (s : string) :
  string_forallb is_digit s = true → trim s = s.
Proof.
  intros Hs. unfold trim.
  assert (string_forallb (λ c, negb (is_whitespace c)) s = true) as Hws.
  { eapply string_forallb_impl; [|done].
    intros c Hc. by destruct (is_digit_spec c Hc) as [-> _]. }
  destruct s as [|c s]; [done|].
  rewrite trim_start_id; [by apply trim_end_id|].
  simpl in Hs. apply andb_true_iff in Hs as [Hc _].
  by destruct (is_digit_spec c Hc).
Qed.

Lemma StringToNumber_pretty_positive (p : positive) :
  StringToNumber (pretty p) = JNum (Z.pos p) ∧
  StringToNumber ("-" +:+ pretty p) = JNum (Z.neg p).
Proof.
  destruct (pretty_positive_digits p) as (Hdig & Hne & Hval).
  assert (unsigned_literal (pretty p) = JNum (Z.pos p)) as Hlit.
  { unfold unsigned_literal. rewrite Hval. by destruct (pretty p). }
  split; unfold StringToNumber.
  - rewrite trim_digits by done.
    destruct (pretty p) as [|c u] eqn:Hp; [done|].
    simpl in Hdig. apply andb_true_iff in Hdig as [Hc _].
    destruct (is_digit_spec c Hc) as (_ & Hplus & Hminus).
    by rewrite !decide_False by done.
  - rewrite string_app_cons, string_app_nil. unfold trim.
    rewrite trim_start_id by done.
    assert (trim_end (String "-" (pretty p)) = String "-" (pretty p)) as ->.
    { apply trim_end_id. simpl. eapply string_forallb_impl; [|done].
      intros c Hc. by destruct (is_digit_spec c Hc) as [-> _]. }
    rewrite decide_False, decide_True by done. by rewrite Hlit.
Qed.

(** [Number(String(z))] is [z]. *)
Lemma StringToNumber_pretty (z : Z) : StringToNumber (pretty z) = JNum z.
Proof.
  destruct z as [|p|p]; [done|..]; unfold pretty at 1, pretty_Z;
    apply StringToNumber_pretty_positive.
Qed.

Lemma pretty_Z_nonempty (z : Z) : pretty z ≠ "".
Proof.
  destruct z as [|p|p]; [done| |done].
  apply pretty_positive_digits.
Qed.

Lemma read_bestScore_pretty (ls : gmap string string) (z : Z) :
  ls !! HIGH_SCORE_KEY = Some (pretty z) → read_bestScore ls = JNum z.
Proof.
  intros Hls. unfold read_bestScore. rewrite Hls.
  pose proof (pretty_Z_nonempty z) as Hne.
  destruct (pretty z) eqn:Hz; [done|]. rewrite <-Hz.
  apply StringToNumber_pretty.
Qed.

Lemma reachable_run (cs : list command) (g g' : SnakeGame) :
  reachable g → run cs g = Some g' → reachable g'.
Proof.
  revert g. induction cs as [|c cs IH]; intros g Hg; simpl.
  - by intros [= <-].
  - destruct (step c g) as [g1|] eqn:Hstep; [|done].
    apply IH. by eapply reachable_step.
Qed.

(** * The first tick after reset *)

(** C1.  The first tick after [reset], with the food ahead of the head.
    [reset] pushes the cells of the row from left to right, so that
    [snake[0]], the head for [tick], is the leftmost cell (4,10) and the
    cell ahead of it when moving Right is the second segment (5,10).
    [spawnFood] never puts the food there; and wherever the food is put,
    also on that cell, the first tick ends the game by self-collision: the
    length stays 4 and does not become 5, the score stays 0 and does not
    become 1, and the food stays where it was. *)
Theorem reset_then_tick_ends_game (r r' : nat) (g : SnakeGame) (f : Pos.t) :
  nextHead_of (reset r g) = Some (Pos.mk 5 10) ∧
  Pos.mk 5 10 ∈ snake (reset r g) ∧
  food (reset r g) ≠ Pos.mk 5 10 ∧
  ∃ g', tick r' (set_food f (reset r g)) = Some g' ∧
        isGameOver g' = true ∧
        length (snake g') = 4%nat ∧
        score g' = 0 ∧
        food g' = f.
Proof.
  assert (Pos.mk 5 10 ∈ initial_snake) as Hin by (by apply hits_body_true).
  split; [done|]. split; [done|]. split.
  - simpl. intros Heq.
    destruct (spawnFood_unoccupied r initial_snake initial_snake_leaves_room)
      as [_ Hoff].
    by rewrite Heq in Hoff.
  - rewrite (tick_running r' _ (Pos.mk 4 10)
               [Pos.mk 5 10; Pos.mk 6 10; Pos.mk 7 10]) by done.
    eexists. split; [done|]. simpl. unfold gameOver. simpl.
    by destruct (js_gt 0 (bestScore g)).
Qed.

(** * The ways through tick *)

Lemma tick_cases (r : nat) (g g' : SnakeGame) :
  tick r g = Some g' → tick_case r g g'.
Proof.
  destruct (isPaused g || isGameOver g) eqn:Hidle.
  { rewrite tick_idle by done. intros [= <-]. by constructor. }
  apply orb_false_iff in Hidle as [Hp Ho].
  destruct (snake g) as [|h t] eqn:Hs.
  { unfold tick. rewrite Hp, Ho. simpl. by rewrite Hs. }
  rewrite (tick_running r g h t Hp Ho Hs). intros [= <-]. cbv zeta.
  destruct (out_of_grid _) eqn:Hgrid.
  { eapply tick_case_fatal; eauto. }
  destruct (hits_body _ _) eqn:Hhit.
  { eapply tick_case_fatal; eauto. }
  destruct (posEquals _ (food g)) eqn:Hfood.
  - eapply tick_case_eat; eauto.
  - eapply tick_case_move; eauto.
Qed.

(** Case analysis on a tick that returned, with the same names in every
    proof: [Hidle] for the idle case, [h :: t] for the snake, [Hp] and
    [Ho] for the flags, [Hfatal] or [Hgrid], [Hhit] and [Hfood] for the
    tests. *)
Ltac tick_by_cases H :=
  lazymatch type of H with
  | tick ?r ?g = Some ?g' =>
      destruct (tick_cases r g g' H)
        as [Hidle|h t Hp Ho Hs Hfatal|h t Hp Ho Hs Hgrid Hhit Hfood
           |h t Hp Ho Hs Hgrid Hhit Hfood]
  end.

(** What [gameOver] leaves alone. *)
Lemma gameOver_frame (g : SnakeGame) :
  isGameOver (gameOver g) = true ∧
  isPaused (gameOver g) = isPaused g ∧
  snake (gameOver g) = snake g ∧
  score (gameOver g) = score g ∧
  food (gameOver g) = food g ∧
  speedIntervalMs (gameOver g) = speedIntervalMs g ∧
  pendingDirection (gameOver g) = pendingDirection g ∧
  currentDirection (gameOver g) = currentDirection g.
Proof. unfold gameOver. by destruct (js_gt _ _). Qed.

(** What the food branch assigns and what it leaves alone. *)
Lemma eat_frame (r : nat) (g : SnakeGame) :
  isGameOver (eat r g) = isGameOver g ∧
  isPaused (eat r g) = isPaused g ∧
  snake (eat r g) = snake g ∧
  score (eat r g) = score g + 1 ∧
  food (eat r g) = spawnFood r (snake g) ∧
  speedIntervalMs (eat r g)
    = (if Z.rem (score g + 1) SPEEDUP_EVERY_POINTS =? 0
       then Z.max 45 (floor_times_SPEEDUP_PERCENT (speedIntervalMs g))
       else speedIntervalMs g) ∧
  pendingDirection (eat r g) = pendingDirection g ∧
  currentDirection (eat r g) = currentDirection g ∧
  bestScore (eat r g) = bestScore g ∧
  localStorage (eat r g) = localStorage g.
Proof. unfold eat. simpl. by destruct (_ =? 0). Qed.


(** * setDirection *)





(** * Game over *)


Lemma nextHead_of_cons (g : SnakeGame) (h : Pos.t) (t : list Pos.t) :
  snake g = h :: t →
  nextHead_of g = Some (next_head h (pendingDirection g)).
Proof. intros Hs. unfold nextHead_of. by rewrite Hs. Qed.



(** * The length of the snake *)

Lemma eats_running (g : SnakeGame) (h : Pos.t) (t : list Pos.t) :
  isPaused g = false → isGameOver g = false → snake g = h :: t →
  eats g
  = negb (out_of_grid (next_head h (pendingDirection g)))
    && negb (hits_body (snake g) (next_head h (pendingDirection g)))
    && posEquals (next_head h (pendingDirection g)) (food g).
Proof.
  intros Hp Ho Hs. unfold eats.
  by rewrite (nextHead_of_cons g h t Hs), Hp, Ho.
Qed.

Lemma cons_neq_self {A} (a : A) (l : list A) : l ≠ a :: l.
Proof.
  intros Heq. apply (f_equal length) in Heq. simpl in Heq. lia.
Qed.

(** C4.  A tick returns, and the snake is then longer by one when the
    tick gave it a new head and that head is the food, and as long as
    before otherwise: on a tick that moves without eating, on a tick that
    ends the game, and on a tick of a paused or finished game.  With the
    food on the grid and off the snake, as [spawnFood] puts it, a tick of
    a running game gives the snake the food as its new head exactly when
    the food is the cell ahead. *)
Theorem tick_length (r : nat) (g : SnakeGame) :
  snake g ≠ [] →
  ∃ g', tick r g = Some g' ∧
        length (snake g')
        = (length (snake g) + if eats g then 1 else 0)%nat ∧
        (eats g = true ↔ snake g' = food g :: snake g) ∧
        (isPaused g || isGameOver g = false →
         in_grid (food g) → food g ∉ snake g →
         (eats g = true ↔ nextHead_of g = Some (food g))).
Proof.
  intros Hne. destruct (tick_total r g Hne) as [g' Htick]. exists g'.
  split; [done|].
  tick_by_cases Htick.
  - assert (eats g = false) as ->.
    { unfold eats. by rewrite Hidle. }
    split; [lia|]. split; [|by rewrite Hidle].
    split; [done|]. intros Heq. by destruct (cons_neq_self (food g) (snake g)).
  - assert (eats g = false) as ->.
    { rewrite (eats_running g h t) by done.
      destruct Hfatal as [-> | ->]; [done|]. by rewrite andb_false_r. }
    destruct (gameOver_frame (set_currentDirection (pendingDirection g) g))
      as (_ & _ & -> & _).
    simpl. split; [lia|]. split.
    + split; [done|]. intros Heq.
      by destruct (cons_neq_self (food g) (snake g)).
    + intros _ Hin Hoff. split; [done|].
      rewrite (nextHead_of_cons g h t Hs). intros [= Heq]. exfalso.
      rewrite Heq in Hfatal. destruct Hfatal as [Hout|Hin'].
      * apply out_of_grid_true in Hout. done.
      * apply hits_body_true in Hin'. done.
  - assert (eats g = true) as ->.
    { rewrite (eats_running g h t) by done. by rewrite Hgrid, Hhit, Hfood. }
    destruct (eat_frame r
                (set_snake (next_head h (pendingDirection g) :: snake g)
                   (set_currentDirection (pendingDirection g) g)))
      as (_ & _ & -> & _).
    apply posEquals_true in Hfood. simpl. rewrite Hfood.
    split; [lia|]. split; [done|]. intros _ _ _. split; [|done].
    intros _. by rewrite (nextHead_of_cons g h t Hs), Hfood.
  - assert (eats g = false) as ->.
    { rewrite (eats_running g h t) by done. by rewrite Hfood, andb_false_r. }
    cbn [snake set_snake]. rewrite length_removelast_cons.
    split; [lia|]. apply posEquals_false in Hfood. split.
    + split; [done|]. intros Heq. apply (f_equal length) in Heq.
      rewrite length_removelast_cons in Heq. simpl in Heq. lia.
    + intros _ _ _. split; [done|].
      rewrite (nextHead_of_cons g h t Hs). by intros [= Heq].
Qed.

(** With the food above the head and Up staged, the tick eats: 4 segments
    become 5. *)
Lemma tick_length_witness :
  eats game_below_food = true ∧
  ∃ g', tick 0 game_below_food = Some g' ∧ length (snake g') = 5%nat ∧
        snake g' = Pos.mk 4 9 :: snake game_below_food.
Proof.
  assert (snake game_below_food ≠ []) as Hne by done.
  assert (eats game_below_food = true) as Heats by (vm_compute; reflexivity).
  destruct (tick_length 0 game_below_food Hne)
    as (g' & Hg' & Hlen & Hhead & _).
  split; [done|]. exists g'. split; [done|].
  rewrite Heats in Hlen. split; [done|].
  rewrite (proj1 Hhead Heats). vm_compute. reflexivity.
Defined.

(** * Ticks of a paused or finished game *)

(** C8.  When the game is paused or over, any number of ticks, whatever
    the draws, return the game as it was: the snake, the score, the food,
    the interval, the directions and every other field are the same. *)
Theorem tick_noop_when_idle (g : SnakeGame) (rs : list nat) :
  isPaused g || isGameOver g = true →
  run (Tick <$> rs) g = Some g.
Proof.
  intros Hidle. induction rs as [|r rs IH]; [done|].
  simpl. by rewrite tick_idle.
Qed.

(** Three ticks of the paused game. *)
Lemma tick_noop_when_idle_witness :
  run [Tick 1; Tick 2; Tick 3] (togglePause fresh_game)
  = Some (togglePause fresh_game).
Proof.
  apply (tick_noop_when_idle (togglePause fresh_game) [1; 2; 3]%nat).
  reflexivity.
Defined.

(** * No overlap *)

(** C10.  In every state of a process the segments of the snake are
    pairwise distinct.  A tick returns a state where they are as well;
    when it ends the game it leaves the array alone, and when it moves
    the array it has after [unshift] has no repeated cell either, the scan
    of the body having passed before. *)
Theorem snake_never_overlaps (g : SnakeGame) :
  reachable g →
  NoDup (snake g) ∧
  ∀ r, ∃ g', tick r g = Some g' ∧ NoDup (snake g') ∧
    (isGameOver g' = true → snake g' = snake g) ∧
    (∀ p, isPaused g = false → isGameOver g' = false →
          nextHead_of g = Some p → NoDup (p :: snake g)).
Proof.
  intros Hreach. pose proof (reachable_inv g Hreach) as Hinv.
  split; [apply Hinv|]. intros r.
  destruct (tick_total r g (game_inv_nonempty g Hinv)) as [g' Htick].
  exists g'. split; [done|].
  split; [apply (game_inv_tick r g g' Hinv Htick)|].
  tick_by_cases Htick.
  - split; [done|]. intros p Hp Ho. by rewrite Hp, Ho in Hidle.
  - destruct (gameOver_frame (set_currentDirection (pendingDirection g) g))
      as (-> & _ & -> & _).
    split; [done|]. by intros p _ [=].
  - destruct (eat_frame r
                (set_snake (next_head h (pendingDirection g) :: snake g)
                   (set_currentDirection (pendingDirection g) g)))
      as (-> & _).
    simpl. split; [by rewrite Ho|].
    intros p _ _. rewrite (nextHead_of_cons g h t Hs). intros [= <-].
    apply NoDup_cons. split; [by apply hits_body_false|apply Hinv].
  - simpl. split; [by rewrite Ho|].
    intros p _ _. rewrite (nextHead_of_cons g h t Hs). intros [= <-].
    apply NoDup_cons. split; [by apply hits_body_false|apply Hinv].
Qed.

(** The snake before and after the tick that eats. *)
Lemma snake_never_overlaps_witness :
  NoDup (snake game_below_food) ∧
  ∃ g', tick 0 game_below_food = Some g' ∧ NoDup (snake g').
Proof.
  assert (reachable game_below_food) as Hreach.
  { apply (reachable_step (constructor ∅ 193)
             (SetDirection (Some Directions.Up)));
      [apply reachable_new|reflexivity]. }
  destruct (snake_never_overlaps game_below_food Hreach) as [Hnd Htick].
  split; [done|].
  destruct (Htick 0%nat) as (g' & Hg' & Hnd' & _).
  exists g'. split; [exact Hg'|exact Hnd'].
Defined.

(** * Score and speed *)

Lemma eats_true_running (g : SnakeGame) :
  eats g = true → isPaused g || isGameOver g = false.
Proof. unfold eats. by destruct (isPaused g || isGameOver g). Qed.

Lemma speedup_test (n : Z) :
  (Z.rem n SPEEDUP_EVERY_POINTS =? 0) = true ↔ (SPEEDUP_EVERY_POINTS | n).
Proof. rewrite Z.eqb_eq. by apply Z.rem_divide. Qed.

(** Within a session a call neither lowers the score nor raises the
    interval. *)
Lemma step_session (c : command) (g g' : SnakeGame) :
  game_inv g → is_reset c = false → step c g = Some g' →
  score g ≤ score g' ∧ speedIntervalMs g' ≤ speedIntervalMs g.
Proof.
  intros Hinv Hc Hstep. destruct c as [r|dir| |r]; simpl in Hstep; [done|..].
  - injection Hstep as <-. destruct dir as [d|]; simpl; [|lia].
    destruct (isOpposite d (currentDirection g)); simpl; lia.
  - injection Hstep as <-. unfold togglePause.
    destruct (isGameOver g); simpl; lia.
  - tick_by_cases Hstep.
    + lia.
    + destruct (gameOver_frame (set_currentDirection (pendingDirection g) g))
        as (_ & _ & _ & -> & _ & -> & _).
      simpl. lia.
    + destruct (eat_frame r
                  (set_snake (next_head h (pendingDirection g) :: snake g)
                     (set_currentDirection (pendingDirection g) g)))
        as (_ & _ & _ & -> & _ & -> & _).
      simpl. pose proof (speedup_bounds _ (inv_speed g Hinv)).
      destruct (_ =? 0); lia.
    + simpl. lia.
Qed.

Lemma run_session (cs : list command) (g : SnakeGame) :
  game_inv g → Forall (λ c, is_reset c = false) cs →
  ∃ g', run cs g = Some g' ∧ game_inv g' ∧
        score g ≤ score g' ∧ speedIntervalMs g' ≤ speedIntervalMs g.
Proof.
  intros Hinv Hcs. revert g Hinv.
  induction Hcs as [|c cs Hc _ IH]; intros g Hinv; simpl.
  { exists g. split; [done|]. split; [done|]. lia. }
  destruct (step_total c g Hinv) as [g1 Hstep]. rewrite Hstep.
  destruct (step_session c g g1 Hinv Hc Hstep) as [Hscore Hspeed].
  destruct (IH g1 (game_inv_step c g g1 Hinv Hstep))
    as (g' & Hrun & Hinv' & Hscore' & Hspeed').
  exists g'. split; [done|]. split; [done|]. lia.
Qed.

(** C5.  In a state of a process, a tick that eats returns with the score
    one higher; when the new score is a multiple of 5 the interval becomes
    the floor of 92 hundredths of itself, or 45 if that is less, and
    otherwise it is kept; either way it is at least 45 and at most what it
    was.  Over any calls that include no reset the score does not go down
    and the interval does not go up, and stays at least 45. *)
Theorem eating_speeds_up (g : SnakeGame) :
  reachable g →
  (eats g = true →
   ∀ r, ∃ g', tick r g = Some g' ∧
     score g' = score g + 1 ∧
     ((SPEEDUP_EVERY_POINTS | score g') →
      speedIntervalMs g' = Z.max 45 ((speedIntervalMs g * 92) `div` 100)) ∧
     (¬ (SPEEDUP_EVERY_POINTS | score g') →
      speedIntervalMs g' = speedIntervalMs g) ∧
     45 ≤ speedIntervalMs g' ≤ speedIntervalMs g) ∧
  (∀ cs, Forall (λ c, is_reset c = false) cs →
     ∃ g', run cs g = Some g' ∧
       score g ≤ score g' ∧
       45 ≤ speedIntervalMs g' ≤ speedIntervalMs g).
Proof.
  intros Hreach. pose proof (reachable_inv g Hreach) as Hinv. split.
  - intros Heats r.
    destruct (tick_total r g (game_inv_nonempty g Hinv)) as [g' Htick].
    exists g'. split; [done|].
    pose proof (game_inv_tick r g g' Hinv Htick) as Hinv'.
    pose proof (eats_true_running g Heats) as Hrun.
    tick_by_cases Htick.
    + congruence.
    + rewrite (eats_running g h t) in Heats by done.
      destruct Hfatal as [Hf|Hf]; rewrite Hf in Heats;
        [done|by rewrite andb_false_r in Heats].
    + pose proof (inv_speed _ Hinv') as Hsp'. revert Hsp'.
      destruct (eat_frame r
                  (set_snake (next_head h (pendingDirection g) :: snake g)
                     (set_currentDirection (pendingDirection g) g)))
        as (_ & _ & _ & -> & _ & -> & _).
      simpl. pose proof (speedup_test (score g + 1)) as Htest.
      rewrite floor_times_SPEEDUP_PERCENT_exact
        by (pose proof (inv_speed g Hinv); lia).
      pose proof (inv_speed g Hinv) as Hsp.
      assert ((speedIntervalMs g * 92) `div` 100 ≤ speedIntervalMs g)
        by (apply Z.div_le_upper_bound; lia).
      intros Hsp'. split; [done|].
      destruct (Z.rem (score g + 1) SPEEDUP_EVERY_POINTS =? 0).
      * split; [done|]. split; [|lia]. intros Hndiv.
        destruct Hndiv. by apply Htest.
      * split; [|split; [done|lia]]. intros Hdiv%Htest. done.
    + rewrite (eats_running g h t) in Heats by done.
      by rewrite Hfood, andb_false_r in Heats.
  - intros cs Hcs.
    destruct (run_session cs g Hinv Hcs) as (g' & Hrun & Hinv' & Hsc & Hsp).
    exists g'. split; [done|]. split; [done|].
    pose proof (inv_speed g' Hinv'). lia.
Qed.

(** The fifth meal in a row: the score 4 becomes 5 and the interval 120
    becomes 110. *)
Lemma eating_speeds_up_witness :
  ∃ g g', run four_meals (constructor ∅ 193) = Some g ∧
          eats g = true ∧ score g = 4 ∧ speedIntervalMs g = 120 ∧
          tick 0 g = Some g' ∧ score g' = 5 ∧ speedIntervalMs g' = 110.
Proof.
  destruct (run_total four_meals (constructor ∅ 193)
              (game_inv_reset _ _)) as (g & Hrun & _).
  assert (eats g = true ∧ score g = 4 ∧ speedIntervalMs g = 120)
    as (Heats & Hscore & Hspeed).
  { revert Hrun. vm_compute. intros [= <-]. done. }
  assert (reachable g) as Hreach
    by apply (reachable_run _ _ _ (reachable_new ∅ 193) Hrun).
  destruct (eating_speeds_up g Hreach) as [Heat _].
  destruct (Heat Heats 0%nat) as (g' & Hg' & Hscore' & Hspeed' & _).
  rewrite Hscore in Hscore'. rewrite Hscore', Hspeed in Hspeed'.
  exists g, g'. repeat (split; [done|]).
  apply Hspeed'. by exists 1.
Defined.

(** * The best score *)








(** * The best score at startup *)

(** Nothing stored gives 0, and the decimal form of an integer, which is
    what [gameOver] stores, gives that integer. *)
Lemma constructor_bestScore_stored (ls : gmap string string) (r : nat) :
  (ls !! "snake-high-score" = None → bestScore (constructor ls r) = JNum 0) ∧
  (ls !! "snake-high-score" = Some "" → bestScore (constructor ls r) = JNum 0) ∧
  (∀ z, ls !! "snake-high-score" = Some (pretty z) →
        bestScore (constructor ls r) = JNum z).
Proof.
  split; [|split]; simpl.
  - intros Hls. unfold read_bestScore, HIGH_SCORE_KEY. by rewrite Hls.
  - intros Hls. unfold read_bestScore, HIGH_SCORE_KEY. by rewrite Hls.
  - intros z Hls. by apply read_bestScore_pretty.
Qed.

Lemma step_bestScore_NaN (c : command) (g g' : SnakeGame) :
  step c g = Some g' → bestScore g = JNaN →
  bestScore g' = JNaN ∧ localStorage g' = localStorage g.
Proof.
  intros Hstep Hnan.
  assert (∀ g1, bestScore g1 = JNaN →
                bestScore (gameOver g1) = JNaN ∧
                localStorage (gameOver g1) = localStorage g1) as Hover.
  { intros g1 Hg1. unfold gameOver. simpl. by rewrite Hg1. }
  destruct c as [r|dir| |r]; simpl in Hstep.
  - by injection Hstep as <-.
  - injection Hstep as <-. destruct dir as [d|]; simpl; [|done].
    by destruct (isOpposite d (currentDirection g)).
  - injection Hstep as <-. unfold togglePause. by destruct (isGameOver g).
  - destruct (tick_cases r g g' Hstep)
      as [Hidle|h t Hp Ho Hs Hfatal|h t Hp Ho Hs Hgrid Hhit Hfood
         |h t Hp Ho Hs Hgrid Hhit Hfood]; [done| | |done].
    + by apply (Hover (set_currentDirection (pendingDirection g) g)).
    + by destruct (eat_frame r
                     (set_snake (next_head h (pendingDirection g) :: snake g)
                        (set_currentDirection (pendingDirection g) g)))
        as (_ & _ & _ & _ & _ & _ & _ & _ & -> & ->).
Qed.

(** C7.  The best score at startup when the stored value is no number.
    With "abc" under the key, [Number("abc" || 0)] is [Number("abc")],
    which is [NaN] and not 0.  No score is greater than [NaN], so that
    through all the calls that follow [bestScore] stays [NaN] and the
    stored value stays "abc". *)
Theorem constructor_corrupt_bestScore (r : nat) (cs : list command) :
  bestScore (constructor {["snake-high-score" := "abc"]} r) = JNaN ∧
  bestScore (constructor {["snake-high-score" := "abc"]} r) ≠ JNum 0 ∧
  ∃ g', run cs (constructor {["snake-high-score" := "abc"]} r) = Some g' ∧
        bestScore g' = JNaN ∧
        localStorage g' !! "snake-high-score" = Some "abc".
Proof.
  split; [done|]. split; [done|].
  assert (∀ g, game_inv g → bestScore g = JNaN →
               ∃ g', run cs g = Some g' ∧ bestScore g' = JNaN ∧
                     localStorage g' = localStorage g) as Hrun.
  { induction cs as [|c cs IH]; intros g Hinv Hnan; simpl; [by exists g|].
    destruct (step_total c g Hinv) as [g1 Hstep]. rewrite Hstep.
    destruct (step_bestScore_NaN c g g1 Hstep Hnan) as [Hnan1 Hls1].
    destruct (IH g1 (game_inv_step c g g1 Hinv Hstep) Hnan1)
      as (g' & Hg' & Hnan' & Hls').
    exists g'. split; [done|]. split; [done|]. congruence. }
  destruct (Hrun (constructor {["snake-high-score" := "abc"]} r))
    as (g' & Hg' & Hnan' & Hls'); [apply game_inv_reset|done|].
  exists g'. split; [done|]. split; [done|]. by rewrite Hls'.
Qed.

(** * More on sessions: the shape of the snake, the score, the interval *)

Lemma adjacent_next_head (h : Pos.t) (d : Directions.t) :
  adjacent (next_head h d) h.
Proof. unfold adjacent. destruct d; simpl; lia. Qed.

Lemma chain_cons (a : Pos.t) (l : list Pos.t) :
  chain (a :: l) ↔ (∀ b, head l = Some b → adjacent a b) ∧ chain l.
Proof.
  destruct l as [|b l]; simpl.
  - split; [by intros _; split|done].
  - split.
    + intros [Hab Hl]. split; [by intros ? [= <-]|done].
    + intros [Hab Hl]. split; [by apply Hab|done].
Qed.

Lemma chain_removelast (l : list Pos.t) : chain l → chain (removelast l).
Proof.
  induction l as [|a l IH]; [done|].
  destruct l as [|b l]; [done|].
  rewrite removelast_cons by done. intros [Hab Hl].
  apply chain_cons. split; [|by apply IH].
  destruct l as [|c l]; [done|].
  rewrite removelast_cons by done. by intros ? [= <-].
Qed.

Lemma chain_lookup (l : list Pos.t) (i : nat) (a b : Pos.t) :
  chain l → l !! i = Some a → l !! S i = Some b → adjacent a b.
Proof.
  revert i. induction l as [|c l IH]; intros i Hl; [done|].
  destruct l as [|c' l]; [by destruct i|].
  destruct Hl as [Hcc Hl]. destruct i as [|i]; simpl.
  - by intros [= <-] [= <-].
  - intros Ha Hb. by apply (IH i).
Qed.

Lemma Forall_removelast {A} (P : A → Prop) (l : list A) :
  Forall P l → Forall P (removelast l).
Proof.
  rewrite !Forall_forall. intros Hl x Hx. by apply Hl, elem_of_removelast.
Qed.

Lemma initial_snake_in_grid : Forall in_grid initial_snake.
Proof.
  rewrite initial_snake_cells.
  repeat (apply Forall_cons; split; [by apply out_of_grid_false|]).
  constructor.
Qed.

Lemma initial_snake_chain : chain initial_snake.
Proof. rewrite initial_snake_cells. by repeat split. Qed.

Lemma interval_at_score_next (n : Z) :
  0 ≤ n →
  interval_at_score (n + 1)
  = if Z.rem (n + 1) SPEEDUP_EVERY_POINTS =? 0
    then speedup_step (interval_at_score n)
    else interval_at_score n.
Proof.
  intros Hn. unfold interval_at_score, SPEEDUP_EVERY_POINTS.
  rewrite Z.rem_mod_nonneg by lia.
  pose proof (Z.div_mod n 5 ltac:(lia)) as Hdm.
  pose proof (Z.mod_pos_bound n 5 ltac:(lia)) as Hm.
  pose proof (Z.div_mod (n + 1) 5 ltac:(lia)) as Hdm'.
  pose proof (Z.mod_pos_bound (n + 1) 5 ltac:(lia)) as Hm'.
  destruct ((n + 1) `mod` 5 =? 0) eqn:Hrem.
  - apply Z.eqb_eq in Hrem.
    assert ((n + 1) `div` 5 = n `div` 5 + 1) as -> by lia.
    rewrite Z2Nat.inj_add by lia. by rewrite Nat.add_comm.
  - apply Z.eqb_neq in Hrem.
    assert ((n + 1) `div` 5 = n `div` 5) as -> by lia. done.
Qed.

Lemma session_inv_reset (r : nat) (g : SnakeGame) :
  read_bestScore (localStorage g) = bestScore g → session_inv (reset r g).
Proof.
  intros Hstored. split.
  - apply initial_snake_in_grid.
  - apply initial_snake_chain.
  - done.
  - done.
  - done.
  - intros Hin.
    by destruct (spawnFood_unoccupied r initial_snake
                   initial_snake_leaves_room) as [_ Hoff].
  - done.
Qed.

Lemma session_inv_gameOver (g : SnakeGame) :
  session_inv g → isPaused g = false → session_inv (gameOver g).
Proof.
  intros [Hgrid Hchain Hscore Hint Hflags Hcorner Hstored] Hp.
  unfold gameOver. simpl.
  destruct (js_gt _ _); split; simpl; try done; try (by rewrite Hp).
  apply read_bestScore_pretty. unfold HIGH_SCORE_KEY.
  apply lookup_insert_eq.
Qed.

Lemma session_inv_step (c : command) (g g' : SnakeGame) :
  game_inv g → session_inv g → step c g = Some g' → session_inv g'.
Proof.
  intros Hinv Hsinv Hstep.
  pose proof Hsinv as [Hing Hchain Hscore Hint Hflags Hcorner Hstored].
  destruct c as [r|dir| |r]; simpl in Hstep.
  - injection Hstep as <-. by apply session_inv_reset.
  - injection Hstep as <-. destruct dir as [d|]; simpl; [|done].
    by destruct (isOpposite d (currentDirection g)).
  - injection Hstep as <-. unfold togglePause.
    destruct (isGameOver g) eqn:Ho; [done|].
    split; simpl; try done. rewrite Ho. apply andb_false_r.
  - tick_by_cases Hstep.
    + done.
    + apply session_inv_gameOver; [|done]. by split.
    + apply out_of_grid_false in Hgrid. apply hits_body_false in Hhit.
      set (p := next_head h (pendingDirection g)) in *.
      set (g2 := set_snake (p :: snake g)
                   (set_currentDirection (pendingDirection g) g)).
      destruct (eat_frame r g2)
        as (Ho' & Hp' & Hsn & Hsc & Hf & Hsp & _ & _ & Hb & Hl).
      split.
      * rewrite Hsn. by apply Forall_cons.
      * rewrite Hsn. apply chain_cons. split; [|done].
        cbn [snake set_snake g2]. rewrite Hs. intros ? [= <-].
        apply adjacent_next_head.
      * rewrite Hsn, Hsc. cbn [snake score set_snake g2 length
                               set_currentDirection].
        rewrite Hscore. lia.
      * rewrite Hsp, Hsc. cbn [score speedIntervalMs set_snake g2
                               set_currentDirection].
        rewrite interval_at_score_next by apply Hinv. by rewrite Hint.
      * rewrite Ho', Hp'. exact Hflags.
      * rewrite Hf, Hsn. intros Hin.
        destruct (spawnFood_inv r (snake g2)) as [_ [Hoff|Hfull]]; [done|].
        by apply spawnFood_full.
      * by rewrite Hb, Hl.
    + apply out_of_grid_false in Hgrid. apply hits_body_false in Hhit.
      apply posEquals_false in Hfood.
      set (p := next_head h (pendingDirection g)) in *.
      split; cbn [snake set_snake set_currentDirection score speedIntervalMs
                  isPaused isGameOver food bestScore localStorage].
      * apply Forall_removelast. by apply Forall_cons.
      * apply chain_removelast. apply chain_cons. split; [|done].
        rewrite Hs. intros ? [= <-]. apply adjacent_next_head.
      * by rewrite length_removelast_cons.
      * exact Hint.
      * exact Hflags.
      * intros Hin%elem_of_removelast.
        apply elem_of_cons in Hin as [Heq|Hin]; [by destruct Hfood|auto].
      * exact Hstored.
Qed.

Lemma reachable_session_inv (g : SnakeGame) : reachable g → session_inv g.
Proof.
  induction 1 as [ls r|g c g' Hreach IH Hstep].
  - by apply session_inv_reset.
  - eapply session_inv_step; [by apply reachable_inv|done..].
Qed.

Lemma length_spaces : length spaces = 441%nat.
Proof. reflexivity. Qed.

Lemma snake_length_bound (l : list Pos.t) :
  NoDup l → Forall in_grid l → (length l ≤ 441)%nat.
Proof.
  intros Hnd Hgrid. rewrite <-length_spaces.
  apply submseteq_length, NoDup_submseteq; [done|].
  intros p Hp. apply elem_of_spaces. by eapply Forall_forall in Hgrid.
Qed.

Lemma full_grid_length (l : list Pos.t) :
  NoDup l → Forall in_grid l → emptyCells l = [] → length l = 441%nat.
Proof.
  intros Hnd Hgrid Hfull. apply Nat.le_antisymm.
  - by apply snake_length_bound.
  - rewrite <-length_spaces.
    apply submseteq_length, NoDup_submseteq; [apply NoDup_spaces|].
    intros p Hp%elem_of_spaces.
    destruct (decide (p ∈ l)) as [Hin|Hout]; [done|].
    assert (p ∈ emptyCells l) as Hempty by (by apply elem_of_emptyCells).
    rewrite Hfull in Hempty. by apply elem_of_nil in Hempty.
Qed.

Lemma speedup_step_floor : speedup_step 45 = 45.
Proof. vm_compute. reflexivity. Qed.

Lemma interval_table_start :
  Forall (λ k, Nat.iter k speedup_step BASE_SPEED_MS
               = nth k interval_table 45) (seq 0 12).
Proof. apply (bool_decide_unpack _). vm_compute. exact I. Qed.

Lemma interval_table_spec (k : nat) :
  Nat.iter k speedup_step BASE_SPEED_MS = nth k interval_table 45.
Proof.
  destruct (decide (k < 12)%nat) as [Hlt|Hge].
  { pose proof interval_table_start as Hstart.
    rewrite Forall_forall in Hstart. apply Hstart, elem_of_seq. lia. }
  rewrite (nth_overflow interval_table) by (simpl; lia).
  induction k as [|k IH]; [lia|].
  rewrite Nat.iter_succ.
  destruct (decide (k < 12)%nat) as [Hlt|Hge'].
  - assert (k = 11%nat) as -> by lia.
    pose proof interval_table_start as Hstart.
    rewrite Forall_forall in Hstart.
    rewrite (Hstart 11%nat) by (apply elem_of_seq; lia).
    apply speedup_step_floor.
  - rewrite IH by done. apply speedup_step_floor.
Qed.

(** X1.  In every state of a process the game is not both paused and
    over: [togglePause] does nothing on a finished game and [tick], which
    alone ends the game, does nothing on a paused one. *)
Theorem never_paused_and_over (g : SnakeGame) :
  reachable g → ¬ (isPaused g = true ∧ isGameOver g = true).
Proof.
  intros Hreach [Hp Ho].
  pose proof (sinv_flags g (reachable_session_inv g Hreach)) as Hflags.
  by rewrite Hp, Ho in Hflags.
Qed.

(** The finished game of the first tick is still not paused after a
    press of Space. *)
Lemma never_paused_and_over_witness :
  ∃ g, run [Tick 0; TogglePause] fresh_game = Some g ∧
       isGameOver g = true ∧
       ¬ (isPaused g = true ∧ isGameOver g = true).
Proof.
  destruct (run_total [Tick 0; TogglePause] fresh_game
              (game_inv_reset _ _)) as (g & Hrun & _).
  exists g. split; [exact Hrun|]. split.
  - revert Hrun. vm_compute. by intros [= <-].
  - apply never_paused_and_over.
    exact (reachable_run _ _ _ (reachable_new ∅ 0) Hrun).
Defined.

(** X2.  In every state of a process the snake lies on the grid and is a
    path: each segment shares a side with the next one. *)
Theorem snake_is_a_path_on_the_grid (g : SnakeGame) :
  reachable g →
  (∀ p, p ∈ snake g → in_grid p) ∧
  (∀ i a b, snake g !! i = Some a → snake g !! S i = Some b →
            adjacent a b).
Proof.
  intros Hreach. pose proof (reachable_session_inv g Hreach) as Hsinv.
  split.
  - intros p Hp. by eapply Forall_forall in Hp; [|apply Hsinv].
  - intros i a b. apply chain_lookup, Hsinv.
Qed.

(** The snake after the meal above the head: its head (4,9) is on the
    grid and next to (4,10). *)
Lemma snake_is_a_path_on_the_grid_witness :
  ∃ g, tick 0 game_below_food = Some g ∧
       in_grid (Pos.mk 4 9) ∧ adjacent (Pos.mk 4 9) (Pos.mk 4 10).
Proof.
  destruct (tick_total 0 game_below_food) as [g Hg]; [done|].
  exists g. split; [exact Hg|].
  assert (reachable g) as Hreach.
  { apply (reachable_step game_below_food (Tick 0)); [|exact Hg].
    apply (reachable_step (constructor ∅ 193)
             (SetDirection (Some Directions.Up)));
      [apply reachable_new|reflexivity]. }
  destruct (snake_is_a_path_on_the_grid g Hreach) as [Hgrid Hpath].
  assert (snake g !! 0%nat = Some (Pos.mk 4 9) ∧
          snake g !! 1%nat = Some (Pos.mk 4 10)) as [H0 H1].
  { revert Hg. vm_compute. by intros [= <-]. }
  split.
  - apply Hgrid. by eapply list_elem_of_lookup_2.
  - by apply (Hpath 0%nat).
Defined.

(** X3.  In every state of a process the score is the number of segments
    the snake has gained since [reset], and it is at most 437, the number
    of cells that [reset] leaves free. *)
Theorem score_counts_growth (g : SnakeGame) :
  reachable g →
  score g = Z.of_nat (length (snake g)) - 4 ∧ 0 ≤ score g ≤ 437.
Proof.
  intros Hreach. pose proof (reachable_session_inv g Hreach) as Hsinv.
  pose proof (reachable_inv g Hreach) as Hinv.
  pose proof (snake_length_bound (snake g) (inv_NoDup g Hinv)
                (sinv_grid g Hsinv)) as Hlen.
  pose proof (sinv_score g Hsinv) as Hscore.
  pose proof (inv_score g Hinv).
  unfold INITIAL_SNAKE_LENGTH in Hscore. lia.
Qed.

(** After four meals the score is 4 and the snake has 8 segments. *)
Lemma score_counts_growth_witness :
  ∃ g, run four_meals (constructor ∅ 193) = Some g ∧
       score g = 4 ∧ length (snake g) = 8%nat.
Proof.
  destruct (run_total four_meals (constructor ∅ 193)
              (game_inv_reset _ _)) as (g & Hrun & _).
  exists g. split; [exact Hrun|].
  destruct (score_counts_growth g
              (reachable_run _ _ _ (reachable_new ∅ 193) Hrun))
    as [Hscore _].
  assert (length (snake g) = 8%nat) as Hlen.
  { revert Hrun. vm_compute. by intros [= <-]. }
  rewrite Hlen in Hscore. split; [exact Hscore|exact Hlen].
Defined.

(** X4.  In every state of a process the food is on the grid, and it is
    under the snake only when the snake fills all 441 cells, the food
    then being the corner (0,0) that [spawnFood] falls back to. *)
Theorem food_is_on_a_free_cell (g : SnakeGame) :
  reachable g →
  in_grid (food g) ∧
  (food g ∈ snake g →
   length (snake g) = 441%nat ∧ food g = Pos.mk 0 0).
Proof.
  intros Hreach. pose proof (reachable_session_inv g Hreach) as Hsinv.
  pose proof (reachable_inv g Hreach) as Hinv.
  destruct (inv_food g Hinv) as [Hgrid Hfood]. split; [done|].
  intros Hin. destruct Hfood as [Hoff|Hfull]; [done|].
  split; [|by apply Hsinv].
  apply full_grid_length; [apply Hinv|apply Hsinv|done].
Qed.

(** The food of a fresh game is on the grid and off the snake. *)
Lemma food_is_on_a_free_cell_witness :
  in_grid (food fresh_game) ∧ food fresh_game ∉ snake fresh_game.
Proof.
  destruct (food_is_on_a_free_cell fresh_game (reachable_new ∅ 0))
    as [Hgrid Hfull].
  split; [exact Hgrid|]. intros Hin. by destruct (Hfull Hin) as [Hlen _].
Defined.

(** X5.  In every state of a process the interval is a function of the
    score: the entry of the table 120, 110, 101, 92, 84, 77, 70, 64, 58,
    53, 48 for every five points, and 45 from 55 points on. *)
Theorem interval_follows_score (g : SnakeGame) :
  reachable g →
  speedIntervalMs g
  = nth (Z.to_nat (score g `div` 5)) interval_table 45 ∧
  (55 ≤ score g → speedIntervalMs g = 45).
Proof.
  intros Hreach. pose proof (reachable_session_inv g Hreach) as Hsinv.
  rewrite (sinv_interval g Hsinv). unfold interval_at_score.
  rewrite interval_table_spec. split; [done|].
  intros Hscore. apply nth_overflow. simpl.
  assert (11 ≤ score g `div` 5) by (apply Z.div_le_lower_bound; lia).
  unfold SPEEDUP_EVERY_POINTS. lia.
Qed.

(** After the fifth meal the interval is the second entry, 110. *)
Lemma interval_follows_score_witness :
  ∃ g, run (four_meals ++ [Tick 0]) (constructor ∅ 193) = Some g ∧
       score g = 5 ∧ speedIntervalMs g = 110.
Proof.
  destruct (run_total (four_meals ++ [Tick 0]) (constructor ∅ 193)
              (game_inv_reset _ _)) as (g & Hrun & _).
  exists g. split; [exact Hrun|].
  destruct (interval_follows_score g
              (reachable_run _ _ _ (reachable_new ∅ 193) Hrun))
    as [Hint _].
  assert (score g = 5) as Hscore.
  { revert Hrun. vm_compute. by intros [= <-]. }
  rewrite Hscore in Hint. split; [exact Hscore|exact Hint].
Defined.

(** * How the calls compose *)

Lemma run_app (cs1 cs2 : list command) (g : SnakeGame) :
  run (cs1 ++ cs2) g = run cs1 g ≫= run cs2.
Proof.
  revert g. induction cs1 as [|c cs1 IH]; intros g; simpl; [done|].
  by destruct (step c g).
Qed.

Lemma run_ticks_idle (g : SnakeGame) (rs : list nat) :
  isPaused g || isGameOver g = true → run (Tick <$> rs) g = Some g.
Proof.
  intros Hidle. induction rs as [|r rs IH]; [done|].
  simpl. by rewrite tick_idle.
Qed.

Lemma togglePause_twice (g : SnakeGame) : togglePause (togglePause g) = g.
Proof.
  unfold togglePause. destruct g as [b s p o i m pd cd sn f ls]. simpl.
  destruct o; simpl; [done|]. by rewrite negb_involutive.
Qed.

Lemma set_pendingDirection_twice (d d' : Directions.t) (g : SnakeGame) :
  set_pendingDirection d (set_pendingDirection d' g)
  = set_pendingDirection d g.
Proof. done. Qed.

Lemma set_pendingDirection_same (g : SnakeGame) :
  set_pendingDirection (pendingDirection g) g = g.
Proof. by destruct g. Qed.



(** X7.  Of the presses between two ticks the last accepted one counts:
    a series of [setDirection] calls stages the last argument that is
    neither falsy nor the negation of [currentDirection], and changes
    nothing when there is none; a refused press does not erase an
    accepted one before it. *)
Theorem setDirection_last_accepted_wins
  (g : SnakeGame) (dirs : list (option Directions.t)) :
  run (SetDirection <$> dirs) g
  = Some (match last_accepted (currentDirection g) dirs with
          | Some d => set_pendingDirection d g
          | None => g
          end).
Proof.
  unfold last_accepted.
  assert (∀ g0, currentDirection g0 = currentDirection g →
            run (SetDirection <$> dirs) g0
            = Some (match last (omap (accepted (currentDirection g)) dirs) with
                    | Some d => set_pendingDirection d g0
                    | None => g0
                    end)) as Hgen; [|by apply Hgen].
  induction dirs as [|dir dirs IH]; intros g0 Hcur; [done|].
  cbn [fmap list_fmap run step omap list_omap].
  destruct dir as [d|]; cbn [setDirection accepted].
  - rewrite Hcur. destruct (isOpposite d (currentDirection g)).
    + by apply IH.
    + rewrite IH by done.
      destruct (omap (accepted (currentDirection g)) dirs) as [|d' l] eqn:Hl.
      * done.
      * rewrite !last_cons. by destruct (last l).
  - by apply IH.
Qed.

(** X8.  Pausing freezes the game: from a running game, a pause, any
    number of ticks and a resume give back the game as it was. *)
Theorem pause_freezes_the_game (g : SnakeGame) (rs : list nat) :
  isPaused g = false → isGameOver g = false →
  run (TogglePause :: (Tick <$> rs) ++ [TogglePause]) g = Some g.
Proof.
  intros Hp Ho. cbn [run step]. rewrite run_app.
  rewrite run_ticks_idle; simpl.
  - by rewrite togglePause_twice.
  - unfold togglePause. by rewrite Ho, Hp.
Qed.

(** A pause, three ticks and a resume of a fresh game. *)
Lemma pause_freezes_the_game_witness :
  run (TogglePause :: (Tick <$> [1; 2; 3]%nat) ++ [TogglePause]) fresh_game
  = Some fresh_game.
Proof.
  apply (pause_freezes_the_game fresh_game [1; 2; 3]%nat); reflexivity.
Defined.

(** X9.  A finished game stays as it is until [reset]: whatever calls
    follow, none of them a reset, they return the game as it was, except
    for [pendingDirection], which [setDirection] still assigns. *)
Theorem game_over_is_final (g : SnakeGame) (cs : list command) :
  isGameOver g = true → Forall (λ c, is_reset c = false) cs →
  ∃ g', run cs g = Some g' ∧
        g' = set_pendingDirection (pendingDirection g') g.
Proof.
  intros Ho Hcs.
  assert (∀ g0, g0 = set_pendingDirection (pendingDirection g0) g →
            ∃ g', run cs g0 = Some g' ∧
                  g' = set_pendingDirection (pendingDirection g') g) as Hgen.
  { induction Hcs as [|c cs Hc _ IH]; intros g0 Hg0; [by exists g0|].
    assert (isGameOver g0 = true) as Ho0 by (by rewrite Hg0).
    assert (currentDirection g0 = currentDirection g) as Hcur
      by (by rewrite Hg0).
    destruct c as [r|dir| |r]; [done|..]; cbn [run step].
    - apply IH. destruct dir as [d|]; cbn [setDirection]; [|done].
      destruct (isOpposite d (currentDirection g0)); [done|].
      rewrite Hg0. done.
    - apply IH. unfold togglePause. by rewrite Ho0.
    - rewrite tick_idle by (rewrite Ho0; apply orb_true_r). by apply IH. }
  apply Hgen. by rewrite set_pendingDirection_same.
Qed.

(** After the first tick has ended a fresh game: Up, a tick and Space
    change the staged direction and nothing else. *)
Lemma game_over_is_final_witness :
  ∃ g g', tick 0 fresh_game = Some g ∧
          run [SetDirection (Some Directions.Up); Tick 1; TogglePause] g
          = Some g' ∧
          g' = set_pendingDirection Directions.Up g.
Proof.
  destruct (tick_total 0 fresh_game) as [g Hg]; [done|].
  assert (isGameOver g = true) as Ho.
  { revert Hg. vm_compute. by intros [= <-]. }
  destruct (game_over_is_final g
              [SetDirection (Some Directions.Up); Tick 1; TogglePause] Ho)
    as (g' & Hrun & Hg').
  { repeat constructor. }
  exists g, g'. split; [exact Hg|]. split; [exact Hrun|].
  assert (pendingDirection g' = Directions.Up) as Hpd.
  { revert Hrun. cbn [run step setDirection].
    assert (currentDirection g = Directions.Right) as ->.
    { revert Hg. vm_compute. by intros [= <-]. }
    change (isOpposite Directions.Up Directions.Right) with false.
    cbv iota.
    rewrite tick_idle by (cbn; rewrite Ho; apply orb_true_r).
    unfold togglePause. cbn [isGameOver set_pendingDirection]. rewrite Ho.
    by intros [= <-]. }
  by rewrite Hpd in Hg'.
Defined.

(** * The page *)

Lemma page_reachable_game (g : SnakeGame) (d : Dom) :
  page_reachable g d → reachable g.
Proof.
  induction 1 as [ls r d0|g d c g' _ IH Hstep].
  - apply reachable_new.
  - by eapply reachable_step.
Qed.

(** What a tick that returned has written. *)
Lemma tick_dom_spec (r : nat) (g g' : SnakeGame) (d : Dom) :
  tick r g = Some g' →
  tick_dom r g d
  = if isPaused g || isGameOver g then d
    else if isGameOver g'
         then updateHud g'
                (showOverlay "Game Over" "Press R to restart or tap Restart" d)
         else updateHud g' d.
Proof.
  unfold tick, tick_dom. destruct (isPaused g || isGameOver g) eqn:Hidle;
    [done|].
  apply orb_false_iff in Hidle as [Hp Ho].
  cbn [snake set_currentDirection currentDirection].
  destruct (snake g) as [|h t] eqn:Hs; [done|].
  set (g1 := set_currentDirection (pendingDirection g) g).
  assert (isGameOver (gameOver g1) = true) as Hover
    by apply gameOver_frame.
  destruct (out_of_grid _).
  { intros [= <-]. by rewrite Hover. }
  destruct (hits_body _ _).
  { intros [= <-]. by rewrite Hover. }
  cbn [food set_snake snake].
  destruct (posEquals _ _).
  - intros [= <-].
    destruct (eat_frame r (set_snake (next_head h (pendingDirection g) :: h :: t) g1))
      as (-> & _).
    cbn [isGameOver set_snake g1 set_currentDirection]. by rewrite Ho.
  - intros [= <-]. cbn [isGameOver set_snake g1 set_currentDirection].
    by rewrite Ho.
Qed.

Lemma page_shows_step (c : command) (g g' : SnakeGame) (d : Dom) :
  isPaused g && isGameOver g = false →
  page_shows g d → step c g = Some g' → page_shows g' (step_dom c g d).
Proof.
  intros Hflags Hshows Hstep.
  pose proof Hshows as (Hscore & Hbest & Hspeed & Hbtn & Hhid & Hpaused & Hover).
  destruct c as [r|dir| |r]; simpl in Hstep; cbn [step_dom].
  - injection Hstep as <-. by repeat split.
  - injection Hstep as <-. destruct dir as [d0|]; simpl; [|exact Hshows].
    destruct (isOpposite d0 (currentDirection g)); exact Hshows.
  - injection Hstep as <-. unfold togglePause, togglePause_dom.
    destruct (isGameOver g) eqn:Ho; [exact Hshows|].
    unfold page_shows. simpl. rewrite Ho.
    destruct (isPaused g); simpl; by repeat split.
  - rewrite (tick_dom_spec r g g' d Hstep).
    destruct (isPaused g || isGameOver g) eqn:Hidle.
    { rewrite tick_idle in Hstep by done. injection Hstep as <-.
      exact Hshows. }
    apply orb_false_iff in Hidle as [Hrun Hlive].
    assert (isPaused g' = false) as Hp'.
    { tick_by_cases Hstep.
      - by rewrite Hrun in Hidle.
      - by destruct (gameOver_frame
                       (set_currentDirection (pendingDirection g) g))
          as (_ & -> & _).
      - by destruct (eat_frame r
                       (set_snake (next_head h (pendingDirection g) :: snake g)
                          (set_currentDirection (pendingDirection g) g)))
          as (_ & -> & _).
      - done. }
    destruct (isGameOver g') eqn:Ho'; unfold page_shows; simpl;
      rewrite Hp', ?Ho'; repeat split; try done.
Qed.

Lemma page_reachable_shows (g : SnakeGame) (d : Dom) :
  page_reachable g d → page_shows g d.
Proof.
  induction 1 as [ls r d0|g d c g' Hreach IH Hstep].
  - by repeat split.
  - apply (page_shows_step c g g' d); [|done..].
    apply sinv_flags, reachable_session_inv.
    by eapply page_reachable_game.
Qed.

Lemma speed_table_start :
  Forall (λ k, speedX (nth k interval_table 45) +:+ "x"
               = nth k speed_table "2.67x") (seq 0 12).
Proof. apply (bool_decide_unpack _). vm_compute. exact I. Qed.

Lemma speed_table_spec (k : nat) :
  speedX (nth k interval_table 45) +:+ "x" = nth k speed_table "2.67x".
Proof.
  pose proof speed_table_start as Hstart. rewrite Forall_forall in Hstart.
  destruct (decide (k < 12)%nat) as [Hlt|Hge].
  - apply Hstart, elem_of_seq. lia.
  - rewrite (nth_overflow interval_table), (nth_overflow speed_table)
      by (simpl; lia).
    apply (Hstart 11%nat), elem_of_seq. lia.
Qed.


(** X11.  The speed that the HUD shows is a function of the score: 1.00x,
    1.09x, 1.19x, 1.30x, 1.43x, 1.56x, 1.71x, 1.88x, 2.07x, 2.26x and 2.50x
    for every five points, and 2.67x from 55 points on; the cap
    [MAX_SPEED_MULTIPLIER] of 3.00x is never shown. *)
Theorem hud_speed_follows_score (g : SnakeGame) (d : Dom) :
  page_reachable g d →
  speedEl d = nth (Z.to_nat (score g `div` 5)) speed_table "2.67x" ∧
  speedEl d ≠ "3.00x".
Proof.
  intros Hpage. pose proof (page_reachable_game g d Hpage) as Hreach.
  destruct (page_reachable_shows g d Hpage) as (_ & _ & -> & _).
  rewrite (sinv_interval g (reachable_session_inv g Hreach)).
  unfold interval_at_score. rewrite interval_table_spec, speed_table_spec.
  split; [done|].
  set (k := Z.to_nat (score g `div` SPEEDUP_EVERY_POINTS)).
  destruct (decide (k < 11)%nat) as [Hlt|Hge].
  - do 11 (destruct k as [|k]; [done|]). lia.
  - by rewrite nth_overflow by (simpl; lia).
Qed.

Lemma page_reachable_run (cs : list command) (g g' : SnakeGame) (d d' : Dom) :
  page_reachable g d → run_page cs g d = Some (g', d') →
  page_reachable g' d'.
Proof.
  revert g d. induction cs as [|c cs IH]; intros g d Hpage; simpl.
  - by intros [= <- <-].
  - destruct (step c g) as [g1|] eqn:Hstep; [|done].
    apply IH. by eapply page_step.
Qed.


(** The page after the fifth meal shows 1.09x. *)
Lemma hud_speed_follows_score_witness :
  ∃ g d, run_page (four_meals ++ [Tick 0]) (constructor ∅ 193) fresh_page
         = Some (g, d) ∧
         score g = 5 ∧ speedEl d = "1.09x".
Proof.
  destruct (run_page (four_meals ++ [Tick 0]) (constructor ∅ 193) fresh_page)
    as [[g d]|] eqn:Hrun; [|by revert Hrun; vm_compute].
  exists g, d. split; [reflexivity|].
  assert (score g = 5) as Hscore.
  { revert Hrun. vm_compute. by intros [= <- <-]. }
  destruct (hud_speed_follows_score g d
              (page_reachable_run _ _ _ _ _ (page_new ∅ 193 blank_page) Hrun))
    as [-> _].
  rewrite Hscore. split; reflexivity.
Defined.

(** * The keyboard *)

(** A decidable closed fact, by evaluation. *)
Ltac by_evaluation := apply (bool_decide_unpack _); vm_compute; exact I.

Lemma KEY_TO_DIR_codes (code : string) (dir : Directions.t) :
  KEY_TO_DIR !! code = Some dir →
  code ∈ handled_codes ∧ code ≠ "Space" ∧ code ≠ "KeyR".
Proof.
  unfold KEY_TO_DIR. intros Hin%elem_of_list_to_map_2.
  repeat (apply elem_of_cons in Hin as [[= -> ->]|Hin];
          [split; [by_evaluation|done]|]).
  by apply elem_of_nil in Hin.
Qed.

Lemma KEY_TO_DIR_handled (code : string) :
  code ∈ handled_codes → code ≠ "Space" → code ≠ "KeyR" →
  is_Some (KEY_TO_DIR !! code).
Proof.
  intros Hin Hs Hr. unfold handled_codes in Hin.
  repeat (apply elem_of_cons in Hin as [->|Hin];
          [first [done|by_evaluation]|]).
  by apply elem_of_nil in Hin.
Qed.

(** X12.  The listener handles ten codes: the arrows and W, A, S, D, which
    it passes as a direction to [setDirection], Space and R.  For these it
    calls [preventDefault]; a key with any other code leaves the game as
    it is and keeps its default action.  A letter does what its arrow
    does. *)
Theorem keydown_handles_ten_codes (r : nat) (code : string) (g : SnakeGame) :
  (snd (keydown r code g) = true ↔ code ∈ handled_codes) ∧
  (code ∉ handled_codes → keydown r code g = (g, false)) ∧
  keydown r "KeyW" g = keydown r "ArrowUp" g ∧
  keydown r "KeyS" g = keydown r "ArrowDown" g ∧
  keydown r "KeyA" g = keydown r "ArrowLeft" g ∧
  keydown r "KeyD" g = keydown r "ArrowRight" g.
Proof.
  assert (snd (keydown r code g) = true ↔ code ∈ handled_codes) as Hiff.
  { unfold keydown. destruct (KEY_TO_DIR !! code) as [dir|] eqn:Hkey.
    - split; [intros _|done]. by eapply KEY_TO_DIR_codes.
    - destruct (decide (code = "Space")) as [->|Hs].
      { split; [intros _|done]. by_evaluation. }
      destruct (decide (code = "KeyR")) as [->|Hr].
      { split; [intros _|done]. by_evaluation. }
      split; [done|]. intros Hin.
      destruct (KEY_TO_DIR_handled code Hin Hs Hr) as [dir Hdir].
      congruence. }
  split; [exact Hiff|]. split; [|done].
  intros Hout. unfold keydown.
  destruct (KEY_TO_DIR !! code) as [dir|] eqn:Hkey.
  { by destruct Hout, (KEY_TO_DIR_codes code dir Hkey). }
  destruct (decide (code = "Space")) as [->|Hs].
  { destruct Hout. by_evaluation. }
  destruct (decide (code = "KeyR")) as [->|Hr].
  { destruct Hout. by_evaluation. }
  done.
Qed.

(** X13.  No key but R touches the game itself: after a key with another
    code the snake, the score, the food, the interval, the committed
    direction, the game-over flag, the best score and the storage are what
    they were.  And every key leads from a state of a process to a state
    of a process. *)
Theorem keydown_only_R_restarts (r : nat) (code : string) (g : SnakeGame) :
  (code ≠ "KeyR" →
   snake (keydown r code g).1 = snake g ∧
   score (keydown r code g).1 = score g ∧
   food (keydown r code g).1 = food g ∧
   speedIntervalMs (keydown r code g).1 = speedIntervalMs g ∧
   currentDirection (keydown r code g).1 = currentDirection g ∧
   isGameOver (keydown r code g).1 = isGameOver g ∧
   bestScore (keydown r code g).1 = bestScore g ∧
   localStorage (keydown r code g).1 = localStorage g) ∧
  (reachable g → reachable (keydown r code g).1).
Proof.
  unfold keydown. destruct (KEY_TO_DIR !! code) as [dir|] eqn:Hkey.
  { split.
    - intros _. simpl. by destruct (isOpposite dir (currentDirection g)).
    - intros Hreach.
      by apply (reachable_step g (SetDirection (Some dir))). }
  destruct (decide (code = "Space")) as [->|Hs].
  { split.
    - intros _. simpl. unfold togglePause.
      destruct (isGameOver g) eqn:Ho; simpl; by rewrite ?Ho.
    - intros Hreach. by apply (reachable_step g TogglePause). }
  destruct (decide (code = "KeyR")) as [->|Hr].
  { split; [done|]. intros Hreach. by apply (reachable_step g (Reset r)). }
  done.
Qed.

(** On a fresh game: W stages Up, and F1 is left to the browser. *)
Lemma keydown_only_R_restarts_witness :
  pendingDirection (keydown 0 "KeyW" fresh_game).1 = Directions.Up ∧
  snake (keydown 0 "KeyW" fresh_game).1 = snake fresh_game ∧
  keydown 0 "F1" fresh_game = (fresh_game, false) ∧
  reachable (keydown 0 "KeyW" fresh_game).1.
Proof.
  destruct (keydown_only_R_restarts 0 "KeyW" fresh_game) as [Hsame Hreach].
  destruct Hsame as (Hsnake & _); [done|].
  split; [reflexivity|]. split; [exact Hsnake|]. split; [reflexivity|].
  apply Hreach, reachable_new.
Defined.

(** * Floating point: the floor of a quotient *)

(** What [round53_sticky] returns lies within half a unit of the last
    place it keeps. *)
Lemma round53_sticky_cases (n : Z) (sticky : bool) :
  0 ≤ n →
  round53_sticky n sticky = n ∨
  ∃ sh q rem,
    0 < sh ∧ sh = Z.log2 n + 1 - 53 ∧
    n = q * 2 ^ sh + rem ∧ 0 ≤ rem < 2 ^ sh ∧
    (round53_sticky n sticky = q * 2 ^ sh ∨
     (round53_sticky n sticky = (q + 1) * 2 ^ sh ∧ 2 ^ (sh - 1) ≤ rem)).
Proof.
  intros Hn. unfold round53_sticky.
  destruct (Z.log2 n + 1 - 53 <=? 0) eqn:Hsh; [by left|].
  apply Z.leb_gt in Hsh. right.
  set (sh := Z.log2 n + 1 - 53) in *.
  exists sh, (n `div` 2 ^ sh), (n `mod` 2 ^ sh).
  assert (0 < 2 ^ sh) by (apply Z.pow_pos_nonneg; lia).
  split; [done|]. split; [done|].
  split; [rewrite (Z.div_mod n (2 ^ sh)) at 1 by lia; lia|].
  split; [by apply Z.mod_pos_bound|].
  rewrite Z.shiftr_div_pow2, Z.land_ones, !Z.shiftl_mul_pow2 by lia.
  rewrite Z.mul_1_l.
  destruct ((2 ^ (sh - 1) <? n `mod` 2 ^ sh)
            || (n `mod` 2 ^ sh =? 2 ^ (sh - 1))
               && (sticky || Z.odd (n `div` 2 ^ sh))) eqn:Hup; [|by left].
  right. split; [done|].
  apply orb_true_iff in Hup as [Hlt%Z.ltb_lt|[Heq%Z.eqb_eq _]%andb_true_iff];
    lia.
Qed.

(** [Math.floor(a / b)] is the integer quotient, for integers
    [0 ≤ a < 2^53] and [0 < b]. *)
Lemma floor_double_quotient (a b : Z) :
  0 ≤ a < 2 ^ 53 → 0 < b →
  double_quotient a b `div` 2 ^ 128 = a `div` b.
Proof.
  intros Ha Hb. unfold double_quotient.
  set (K := 2 ^ 128). set (n := (a * K) `div` b).
  set (sticky := negb ((a * K) `mod` b =? 0)).
  set (k := a `div` b). set (j := a `mod` b).
  assert (0 < K) as HK by done.
  assert (a = b * k + j) as Hkj by (by apply Z.div_mod; lia).
  assert (0 ≤ j < b) as Hj by (by apply Z.mod_pos_bound).
  assert (0 ≤ k) as Hk by (by apply Z.div_pos; lia).
  set (t := (j * K) `div` b).
  assert (n = k * K + t) as Hn.
  { unfold n, t. rewrite Hkj.
    replace ((b * k + j) * K) with (k * K * b + j * K) by lia.
    by rewrite Z.div_add_l by lia. }
  assert (0 ≤ t) as Ht0 by (apply Z.div_pos; nia).
  assert (t * b ≤ (b - 1) * K) as Htb.
  { pose proof (Z.mul_div_le (j * K) b Hb) as Hle.
    fold t in Hle. nia. }
  assert (t < K) as HtK by nia.
  assert (n * b ≤ a * K) as Hnb.
  { pose proof (Z.mul_div_le (a * K) b Hb) as Hle. fold n in Hle. lia. }
  symmetry.
  apply (Z.div_unique _ _ _ (round53_sticky n sticky - k * K)); [left|lia].
  destruct (round53_sticky_cases n sticky ltac:(lia))
    as [->|(sh & q & rem & Hsh & Hshdef & Hq & Hrem & Hcases)]; [lia|].
  assert (0 < n) as Hnpos.
  { destruct (decide (n = 0)) as [Hz|]; [|lia].
    rewrite Hz in Hshdef. simpl in Hshdef. lia. }
  assert (sh ≤ 128) as Hsh128.
  { assert (Z.log2 n < 181); [|lia].
    apply Z.log2_lt_pow2; [done|].
    assert (a * K < 2 ^ 181); [|nia].
    replace (2 ^ 181) with (2 ^ 53 * K) by done. nia. }
  set (P := 2 ^ sh) in *. set (H := 2 ^ (sh - 1)) in *.
  assert (0 < H) as HH by (apply Z.pow_pos_nonneg; lia).
  assert (P = 2 * H) as HP.
  { unfold P, H. replace sh with (1 + (sh - 1)) at 1 by lia.
    rewrite Z.pow_add_r by lia. done. }
  set (M := 2 ^ (128 - sh)).
  assert (0 < M) as HM by (apply Z.pow_pos_nonneg; lia).
  assert (K = P * M) as HKM.
  { unfold K, P, M. rewrite <-Z.pow_add_r by lia. f_equal. lia. }
  assert (H * 2 ^ 53 ≤ n) as HHn.
  { unfold H. rewrite <-Z.pow_add_r by lia.
    replace (sh - 1 + 53) with (Z.log2 n) by lia.
    by apply Z.log2_spec. }
  assert (H * b < K) as HHb.
  { assert (H * 2 ^ 53 * b < 2 ^ 53 * K); [|nia].
    assert (a * K < 2 ^ 53 * K) by nia. nia. }
  assert (k * M ≤ q) as Hlow by nia.
  assert (q < (k + 1) * M) as Hhigh by nia.
  destruct Hcases as [->|[-> Hhalf]]; [nia|].
  split; [nia|].
  destruct (decide (q + 1 = (k + 1) * M)) as [Heq|Hne]; [|nia].
  exfalso.
  assert (K - H ≤ t) as HtH by nia.
  nia.
Qed.

(** * Rendering *)

Lemma Z_min_div (a b k : Z) :
  0 < k → Z.min a b `div` k = Z.min (a `div` k) (b `div` k).
Proof.
  intros Hk. destruct (Z.le_ge_cases a b) as [Hab|Hba].
  - rewrite !Z.min_l; [done| |done]. by apply Z.div_le_mono.
  - rewrite !Z.min_r; [done| |done]. by apply Z.div_le_mono.
Qed.

Lemma cellSize_quotient (width height : Z) :
  0 ≤ width < 2 ^ 53 → 0 ≤ height < 2 ^ 53 →
  cellSize width height
  = Z.min (width `div` GRID_COLUMNS) (height `div` GRID_ROWS).
Proof.
  intros Hw Hh. unfold cellSize.
  rewrite Z_min_div by done. by rewrite !floor_double_quotient.
Qed.

Lemma cellSize_bounds (width height : Z) :
  0 ≤ width < 2 ^ 53 → 0 ≤ height < 2 ^ 53 →
  0 ≤ cellSize width height ∧
  cellSize width height * GRID_COLUMNS ≤ width ∧
  cellSize width height * GRID_ROWS ≤ height ∧
  Z.min width height < (cellSize width height + 1) * 21.
Proof.
  intros Hw Hh. rewrite cellSize_quotient by done.
  unfold GRID_COLUMNS, GRID_ROWS.
  pose proof (Z.div_mod width 21 ltac:(lia)).
  pose proof (Z.mod_pos_bound width 21 ltac:(lia)).
  pose proof (Z.div_mod height 21 ltac:(lia)).
  pose proof (Z.mod_pos_bound height 21 ltac:(lia)).
  lia.
Qed.

Lemma offsetX_half (width height : Z) :
  0 ≤ width < 2 ^ 53 → 0 ≤ height < 2 ^ 53 →
  offsetX width height
  = (width - cellSize width height * GRID_COLUMNS) `div` 2.
Proof.
  intros Hw Hh. unfold offsetX.
  destruct (cellSize_bounds width height Hw Hh) as (? & ? & ? & ?).
  apply floor_double_quotient; [|done].
  unfold GRID_COLUMNS in *. lia.
Qed.

Lemma offsetY_half (width height : Z) :
  0 ≤ width < 2 ^ 53 → 0 ≤ height < 2 ^ 53 →
  offsetY width height
  = (height - cellSize width height * GRID_ROWS) `div` 2.
Proof.
  intros Hw Hh. unfold offsetY.
  destruct (cellSize_bounds width height Hw Hh) as (? & ? & ? & ?).
  apply floor_double_quotient; [|done].
  unfold GRID_ROWS in *. lia.
Qed.


(** X14.  The grid fits the canvas and is centred.  For a canvas of
    [width] by [height], the side of a cell is the smaller of the two
    integer quotients by 21, the largest side for which 21 cells fit both
    ways; the grid of 21 by 21 cells with the offsets of [render] lies
    within the canvas, and on each axis the margin after it is the margin
    before it or one pixel more. *)
Theorem render_grid_fits_and_is_centred (width height : Z) :
  0 ≤ width < 2 ^ 53 → 0 ≤ height < 2 ^ 53 →
  cellSize width height = Z.min (width `div` 21) (height `div` 21) ∧
  0 ≤ cellSize width height ∧
  Z.min width height < (cellSize width height + 1) * 21 ∧
  0 ≤ offsetX width height ∧
  offsetX width height + 21 * cellSize width height ≤ width ∧
  0 ≤ (width - (offsetX width height + 21 * cellSize width height))
      - offsetX width height ≤ 1 ∧
  0 ≤ offsetY width height ∧
  offsetY width height + 21 * cellSize width height ≤ height ∧
  0 ≤ (height - (offsetY width height + 21 * cellSize width height))
      - offsetY width height ≤ 1.
Proof.
  intros Hw Hh.
  destruct (cellSize_bounds width height Hw Hh) as (Hc & Hcw & Hch & Hmax).
  rewrite offsetX_half, offsetY_half by done.
  split; [by apply cellSize_quotient|].
  unfold GRID_COLUMNS, GRID_ROWS in *.
  pose proof (Z.div_mod (width - cellSize width height * 21) 2 ltac:(lia)).
  pose proof (Z.mod_pos_bound (width - cellSize width height * 21) 2
                ltac:(lia)).
  pose proof (Z.div_mod (height - cellSize width height * 21) 2 ltac:(lia)).
  pose proof (Z.mod_pos_bound (height - cellSize width height * 21) 2
                ltac:(lia)).
  lia.
Qed.

(** A canvas of 560 by 400: cells of 19, offsets 80 and 0. *)
Lemma render_grid_fits_and_is_centred_witness :
  cellSize 560 400 = 19 ∧ offsetX 560 400 = 80 ∧ offsetY 560 400 = 0 ∧
  offsetX 560 400 + 21 * cellSize 560 400 ≤ 560.
Proof.
  destruct (render_grid_fits_and_is_centred 560 400)
    as (Hc & _ & _ & _ & Hfit & _); [done..|].
  split; [exact Hc|]. split; [by vm_compute|]. split; [by vm_compute|].
  exact Hfit.
Defined.







Lemma count_ops_app (test : ctx_op → bool) (l k : list ctx_op) :
  count_ops test (l ++ k) = (count_ops test l + count_ops test k)%nat.
Proof. unfold count_ops. by rewrite filter_app, length_app. Qed.

Lemma count_drawRoundedCell (x y cell ox oy : Z) (color : string)
  (frac : double) :
  count_ops is_Fill (drawRoundedCell x y cell ox oy color frac) = 1%nat ∧
  count_ops is_FillRect (drawRoundedCell x y cell ox oy color frac) = 0%nat.
Proof. done. Qed.

Lemma count_render_checker (pal : Palette) (cell ox oy : Z) :
  count_ops is_Fill (render_checker pal cell ox oy) = 0%nat ∧
  count_ops is_FillRect (render_checker pal cell ox oy) = 220%nat.
Proof. split; vm_compute; reflexivity. Qed.

Lemma count_render_snake (rounds : nat) (pal : Palette) (l : list Pos.t)
  (cell ox oy : Z) :
  (rounds ≤ length l)%nat →
  count_ops is_Fill (render_snake rounds pal l cell ox oy) = rounds ∧
  count_ops is_FillRect (render_snake rounds pal l cell ox oy) = 0%nat.
Proof.
  induction rounds as [|i IH]; intros Hlen; [done|].
  cbn [render_snake]. rewrite !count_ops_app.
  destruct (lookup_lt_is_Some_2 l i ltac:(lia)) as [s ->].
  destruct IH as [-> ->]; [lia|].
  by destruct (count_drawRoundedCell (Pos.x s) (Pos.y s) cell ox oy
                 (if bool_decide (i = 0%nat) then COLOR_SNAKE_HEAD pal
                  else COLOR_SNAKE pal)
                 (if bool_decide (i = 0%nat) then RADIUS_HEAD
                  else RADIUS_BODY)) as [-> ->].
Qed.

Lemma render_snake_S (i : nat) (pal : Palette) (l : list Pos.t)
  (cell ox oy : Z) :
  render_snake (S i) pal l cell ox oy
  = match l !! i with
    | Some segment =>
        drawRoundedCell (Pos.x segment) (Pos.y segment) cell ox oy
          (if bool_decide (i = 0%nat) then COLOR_SNAKE_HEAD pal
           else COLOR_SNAKE pal)
          (if bool_decide (i = 0%nat) then RADIUS_HEAD else RADIUS_BODY)
    | None => []
    end ++ render_snake i pal l cell ox oy.
Proof. reflexivity. Qed.

Lemma render_snake_ends_with_head (rounds : nat) (pal : Palette)
  (h : Pos.t) (t : list Pos.t) (cell ox oy : Z) :
  ∃ before,
    render_snake (S rounds) pal (h :: t) cell ox oy
    = before ++ drawRoundedCell (Pos.x h) (Pos.y h) cell ox oy
                  (COLOR_SNAKE_HEAD pal) RADIUS_HEAD.
Proof.
  induction rounds as [|i [before IH]].
  - exists []. rewrite render_snake_S. simpl. by rewrite ?app_nil_r.
  - eexists. rewrite (render_snake_S (S i)), IH, app_assoc. reflexivity.
Qed.

(** X16.  The head is painted last, on top of everything else.  On a
    snake with a head, what [render] paints ends with the rounded cell of
    segment 0 in the colour of the head; before it come the background,
    220 squares of the checker, the food and the other segments: 221
    rectangles in all, and one filled shape for the food and for each
    segment. *)
Theorem render_paints_head_last
  (pal : Palette) (width height : Z) (g : SnakeGame)
  (h : Pos.t) (t : list Pos.t) :
  snake g = h :: t →
  (∃ before,
     render pal width height g
     = before ++ drawRoundedCell (Pos.x h) (Pos.y h)
                   (cellSize width height) (offsetX width height)
                   (offsetY width height)
                   (COLOR_SNAKE_HEAD pal) RADIUS_HEAD) ∧
  count_ops is_Fill (render pal width height g) = S (length (snake g)) ∧
  count_ops is_FillRect (render pal width height g) = 221%nat.
Proof.
  intros Hs. unfold render. rewrite Hs. split.
  - destruct (render_snake_ends_with_head (length t) pal h t
                (cellSize width height) (offsetX width height)
                (offsetY width height)) as [before Hbefore].
    cbn [length]. rewrite Hbefore. eexists.
    rewrite !app_assoc. reflexivity.
  - rewrite !count_ops_app.
    destruct (count_render_checker pal (cellSize width height)
                (offsetX width height) (offsetY width height)) as [-> ->].
    destruct (count_render_snake (length (h :: t)) pal (h :: t)
                (cellSize width height) (offsetX width height)
                (offsetY width height)) as [-> ->]; [done|].
    done.
Qed.

(** A fresh game on a canvas of 560 by 560: five filled shapes. *)
Lemma render_paints_head_last_witness :
  count_ops is_Fill (render default_palette 560 560 fresh_game) = 5%nat ∧
  last (render default_palette 560 560 fresh_game) = Some Fill.
Proof.
  destruct (render_paints_head_last default_palette 560 560 fresh_game
              (Pos.mk 4 10) [Pos.mk 5 10; Pos.mk 6 10; Pos.mk 7 10])
    as ([before Hlast] & Hfill & _); [reflexivity|].
  split; [exact Hfill|]. rewrite Hlast.
  unfold drawRoundedCell. by rewrite !app_assoc, last_snoc.
Defined.

(** * The loop *)

Lemma run_snoc (cs : list command) (c : command) (g : SnakeGame) :
  run (cs ++ [c]) g = run cs g ≫= step c.
Proof.
  rewrite run_app. destruct (run cs g) as [g1|]; [|done]. simpl.
  by destruct (step c g1).
Qed.

(** With fuel for one more test than there are intervals in the
    accumulator, the [while] loop stops, after that many ticks. *)
Lemma loop_while_spec (interval : Z) (draws : nat → nat) (fuel : nat)
  (k : nat) (g : SnakeGame) (acc : Z) :
  0 < interval → 0 ≤ acc → game_inv g →
  (Z.to_nat (acc `div` interval) ≤ fuel)%nat →
  ∃ g',
    loop_while fuel interval draws k g acc
    = Some (g', acc `mod` interval,
            (k + Z.to_nat (acc `div` interval))%nat) ∧
    run (Tick ∘ draws <$> seq k (Z.to_nat (acc `div` interval))) g
    = Some g' ∧
    game_inv g'.
Proof.
  intros Hint. revert k g acc.
  induction fuel as [|fuel IH]; intros k g acc Hacc Hinv Hfuel.
  - assert (acc `div` interval = 0) as Hdiv.
    { pose proof (Z.div_pos acc interval Hacc Hint). lia. }
    apply Z.div_small_iff in Hdiv as [Hsmall|?]; [|lia|lia].
    cbn [loop_while]. rewrite (proj2 (Z.leb_gt _ _)) by lia.
    rewrite Z.mod_small, Z.div_small by done.
    exists g. by rewrite Nat.add_0_r.
  - cbn [loop_while]. destruct (interval <=? acc) eqn:Hle.
    + apply Z.leb_le in Hle.
      destruct (tick_total (draws k) g (game_inv_nonempty g Hinv))
        as [g1 Htick].
      rewrite Htick.
      assert (acc `div` interval = (acc - interval) `div` interval + 1)
        as Hdiv.
      { replace acc with (acc - interval + 1 * interval) at 1 by lia.
        by rewrite Z.div_add by lia. }
      assert (acc `mod` interval = (acc - interval) `mod` interval)
        as Hmod.
      { replace acc with (acc - interval + 1 * interval) at 1 by lia.
        by rewrite Z.mod_add by lia. }
      pose proof (Z.div_pos (acc - interval) interval ltac:(lia) Hint).
      destruct (IH (S k) g1 (acc - interval)) as (g' & Hloop & Hrun & Hinv');
        [lia|by eapply game_inv_tick|lia|].
      exists g'. rewrite Hloop, Hmod, Hdiv.
      rewrite Z2Nat.inj_add by lia. change (Z.to_nat 1) with 1%nat.
      rewrite (Nat.add_comm _ 1). cbn [Nat.add seq fmap list_fmap compose].
      cbn [run step]. rewrite Htick.
      split; [do 2 f_equal; lia|done].
    + apply Z.leb_gt in Hle.
      rewrite Z.mod_small, Z.div_small by done.
      exists g. by rewrite Nat.add_0_r.
Qed.

(** X17.  One frame of the loop, for timestamps in whole milliseconds.
    From a state of a process, with an accumulator that is not negative
    and a timestamp that is not before the last one, the frame ends and
    has run as many ticks as the interval, read once before the ticks,
    fits in the time accumulated; the game is the one these ticks lead
    to, the time left over is kept in the accumulator and is less than
    that interval, and no time is lost: ticks times interval plus the new
    accumulator is the old accumulator plus the time elapsed. *)
Theorem loop_runs_the_ticks_that_fit
  (draws : nat → nat) (now : Z) (g : SnakeGame) (clk : Clock) (fuel : nat) :
  reachable g → 0 ≤ accumulator clk → lastTickAt clk ≤ now →
  (Z.to_nat ((accumulator clk + (now - lastTickAt clk))
             `div` speedIntervalMs g) ≤ fuel)%nat →
  ∃ g' clk' n,
    loop fuel draws now g clk = Some (g', clk', n) ∧
    Z.of_nat n
    = (accumulator clk + (now - lastTickAt clk)) `div` speedIntervalMs g ∧
    run (Tick ∘ draws <$> seq 0 n) g = Some g' ∧
    lastTickAt clk' = now ∧
    0 ≤ accumulator clk' < speedIntervalMs g ∧
    Z.of_nat n * speedIntervalMs g + accumulator clk'
    = accumulator clk + (now - lastTickAt clk).
Proof.
  intros Hreach Hacc Hnow Hfuel.
  pose proof (reachable_inv g Hreach) as Hinv.
  pose proof (inv_speed g Hinv) as Hspeed.
  set (acc := accumulator clk + (now - lastTickAt clk)) in *.
  destruct (loop_while_spec (speedIntervalMs g) draws fuel 0 g acc)
    as (g' & Hloop & Hrun & _); [lia|lia|done|done|].
  unfold loop. fold acc. rewrite Hloop. eexists _, _, _.
  split; [reflexivity|]. cbn [lastTickAt accumulator Nat.add].
  pose proof (Z.div_pos acc (speedIntervalMs g) ltac:(lia) ltac:(lia)).
  pose proof (Z.mod_pos_bound acc (speedIntervalMs g) ltac:(lia)).
  pose proof (Z.div_mod acc (speedIntervalMs g) ltac:(lia)).
  rewrite Z2Nat.id by done. repeat split; try done; lia.
Qed.

(** The game below its food, 250 ms after its reset: two ticks, and 10 ms
    are left. *)
Lemma loop_runs_the_ticks_that_fit_witness :
  ∃ g', loop 5 no_luck 1250 game_below_food (reset_clock 1000)
        = Some (g', mkClock 1250 10, 2%nat).
Proof.
  assert (reachable game_below_food) as Hreach.
  { apply (reachable_step (constructor ∅ 193)
             (SetDirection (Some Directions.Up)));
      [apply reachable_new|reflexivity]. }
  destruct (loop_runs_the_ticks_that_fit no_luck 1250 game_below_food
              (reset_clock 1000) 5 Hreach)
    as (g' & [last acc] & n & Hloop & Hn & _ & Hlast & _ & Htime);
    [done|done|vm_compute; lia|].
  exists g'. rewrite Hloop.
  change (Z.of_nat n = 2) in Hn.
  assert (n = 2%nat) as -> by lia.
  change (2 * 120 + acc = 250) in Htime. change (last = 1250) in Hlast.
  repeat f_equal; lia.
Defined.



(** * The end of a game *)




(** X20.  A full grid is no win: when the snake occupies every cell of
    the grid, the next tick of a running game ends the game, whatever the
    direction, and leaves the snake and the score as they were. *)
Theorem full_grid_ends_the_game (r : nat) (g : SnakeGame) :
  isPaused g = false → isGameOver g = false → snake g ≠ [] →
  (∀ p, in_grid p → p ∈ snake g) →
  ∃ g', tick r g = Some g' ∧ isGameOver g' = true ∧
        snake g' = snake g ∧ score g' = score g.
Proof.
  intros Hp0 Ho0 Hne Hfull.
  destruct (tick_total r g Hne) as [g' Htick]. exists g'.
  split; [done|].
  assert (∀ h, hits_body (snake g) (next_head h (pendingDirection g)) = false →
               out_of_grid (next_head h (pendingDirection g)) = false →
               False) as Hno.
  { intros h Hhit%hits_body_false Hgrid%out_of_grid_false. auto. }
  tick_by_cases Htick.
  - by rewrite Hp0, Ho0 in Hidle.
  - by destruct (gameOver_frame (set_currentDirection (pendingDirection g) g))
      as (-> & _ & -> & -> & _).
  - by destruct (Hno h).
  - by destruct (Hno h).
Qed.

(** The serpentine snake, heading Right: the game ends. *)
Lemma full_grid_ends_the_game_witness :
  length (snake full_game) = 441%nat ∧
  ∃ g', tick 0 full_game = Some g' ∧ isGameOver g' = true ∧
        score g' = 437.
Proof.
  assert (Forall (λ p, p ∈ serpentine) spaces) as Hall by by_evaluation.
  destruct (full_grid_ends_the_game 0 full_game)
    as (g' & Hg' & Ho & _ & Hscore); [done|done|done| |].
  { intros p Hp%elem_of_spaces. rewrite Forall_forall in Hall. by apply Hall. }
  split; [reflexivity|].
  exists g'. split; [exact Hg'|]. split; [exact Ho|exact Hscore].
Defined.
